(** * connect-log: a logging interceptor for ConnectRPC

    A shallow embedding of the Go package [connectlog] (headers.go,
    errors.go, stream.go, size.go, interceptor.go) and the properties its
    specification states about it.

    Conventions of the embedding:
    - Go strings are byte strings; they are modelled by [string].  The
      byte-level functions (length, prefix, index, slicing) are exact on
      every string; the two case-folding functions are exact on ASCII
      text, and the properties that depend on them assume ASCII header
      names and configured names.
    - Go maps and pointers to structs are reference types; where identity or
      mutation matters they live in an explicit heap (a list indexed by
      address) that is threaded through the functions.
    - A run-time panic is a value of type [fault]; a function that can panic
      returns a [result].
    - The logger is an external collaborator: the embedding records the
      calls made on it ([LogCall]) in the order they are made. *)

From stdpp Require Import base option list strings gmap fin_maps.
From Stdlib Require Import ZArith NArith Ascii DecimalString Lia.

Set Warnings "-register-all".

Local Open Scope Z_scope.

(** ** Run-time faults *)

Inductive fault : Type :=
| SliceBoundsOutOfRange (bound : Z) (len : Z)
| NilDereference.

Inductive result (A : Type) : Type :=
| Ok (a : A)
| Panic (f : fault).
Arguments Ok {A} a.
Arguments Panic {A} f.

#[global] Instance result_ret : MRet result := fun _ a => Ok a.

#[global] Instance result_bind : MBind result := fun _ _ k r =>
  match r with
  | Ok a => k a
  | Panic f => Panic f
  end.

(** ** The parts of Go's [strings] package the code uses *)

Module strings.

(** [len(s)]: the number of bytes. *)
Definition len (s : string) : Z := Z.of_nat (String.length s).

Definition is_upper (c : ascii) : bool :=
  let n := nat_of_ascii c in (Nat.leb 65 n && Nat.leb n 90)%bool.

Definition lower_byte (c : ascii) : ascii :=
  if is_upper c then ascii_of_nat (nat_of_ascii c + 32) else c.

(** [strings.ToLower], as the library computes it on ASCII text: 'A'..'Z'
    are shifted by 'a'-'A'.  On text with a byte above 127 the library maps
    Unicode letters, which this function does not; no property below is
    stated about folding such text. *)
Fixpoint ToLower (s : string) : string :=
  match s with
  | EmptyString => EmptyString
  | String c s' => String (lower_byte c) (ToLower s')
  end.

(** One iteration of the ASCII loop of [strings.EqualFold]: equal bytes, or
    after ordering the pair, an upper-case letter and its lower-case form. *)
Definition fold_byte_eq (sr tr : ascii) : bool :=
  if Ascii.eqb tr sr then true
  else
    let lo := if Nat.ltb (nat_of_ascii tr) (nat_of_ascii sr) then tr else sr in
    let hi := if Nat.ltb (nat_of_ascii tr) (nat_of_ascii sr) then sr else tr in
    (is_upper lo && Nat.eqb (nat_of_ascii hi) (nat_of_ascii lo + 32))%bool.

(** [strings.EqualFold], as the library computes it on ASCII text: the
    loop runs over the common prefix and the result then requires both
    strings to be exhausted.  When a byte above 127 is met the library
    compares runes under Unicode folding, which this function does not. *)
Fixpoint EqualFold (s t : string) : bool :=
  match s, t with
  | EmptyString, EmptyString => true
  | String sr s', String tr t' =>
      if fold_byte_eq sr tr then EqualFold s' t' else false
  | _, _ => false
  end.

Fixpoint HasPrefix (s prefix : string) : bool :=
  match prefix, s with
  | EmptyString, _ => true
  | String p prefix', String c s' =>
      if Ascii.eqb c p then HasPrefix s' prefix' else false
  | String _ _, EmptyString => false
  end.

(** [strings.Index]: the byte offset of the first occurrence of [substr]
    in [s], or -1. *)
Fixpoint Index (s substr : string) : Z :=
  if HasPrefix s substr then 0
  else
    match s with
    | EmptyString => -1
    | String _ s' =>
        let i := Index s' substr in
        if i <? 0 then -1 else i + 1
    end.

Definition Contains (s substr : string) : bool := 0 <=? Index s substr.

Fixpoint drop (n : nat) (s : string) : string :=
  match n, s with
  | O, _ => s
  | S n', String _ s' => drop n' s'
  | S _, EmptyString => EmptyString
  end.

Fixpoint take (n : nat) (s : string) : string :=
  match n, s with
  | O, _ => EmptyString
  | S n', String c s' => String c (take n' s')
  | S _, EmptyString => EmptyString
  end.

(** [strings.TrimPrefix]: [s] without the leading [prefix], or [s]. *)
Definition TrimPrefix (s prefix : string) : string :=
  if HasPrefix s prefix then drop (String.length prefix) s else s.

(** The slice expression [s[:hi]], which panics unless [0 <= hi <= len]. *)
Definition slice_to (s : string) (hi : Z) : result string :=
  if (0 <=? hi) && (hi <=? len s) then Ok (take (Z.to_nat hi) s)
  else Panic (SliceBoundsOutOfRange hi (len s)).

(** The slice expression [s[lo:]], which panics unless [0 <= lo <= len]. *)
Definition slice_from (s : string) (lo : Z) : result string :=
  if (0 <=? lo) && (lo <=? len s) then Ok (drop (Z.to_nat lo) s)
  else Panic (SliceBoundsOutOfRange lo (len s)).

End strings.

(** ** headers.go *)

Module headers.

(** [map[string][]string]. *)
Abbreviation Header := (gmap string (list string)).

(** The heap of map objects; a map value is the address of its object. *)
Abbreviation MapHeap := (list Header).

Definition REDACTED : list string := ["[REDACTED]"].

(** [shouldRedactHeader]: the loop over the configured names, then the
    built-in rules on the lower-cased key. *)
Definition shouldRedactHeader (key : string) (redactHeaders : list string) : bool :=
  let keyLower := strings.ToLower key in
  if existsb (fun h => strings.EqualFold keyLower h) redactHeaders then true
  else
    (String.eqb keyLower "authorization"
     || strings.Contains keyLower "token"
     || strings.Contains keyLower "secret"
     || strings.Contains keyLower "password")%bool.

(** The body of the [range] loop: one store into the map at [redacted]. *)
Definition redact_entry (redactHeaders : list string) (redacted : nat)
    (k : string) (v : list string) (σ : MapHeap) : MapHeap :=
  if shouldRedactHeader k redactHeaders
  then alter (insert k REDACTED) redacted σ
  else alter (insert k v) redacted σ.

(** [redactHeadersMap]: [make] allocates a fresh map object, the loop
    ranges over the entries of [headers] (a nil map ranges over nothing)
    and the address of the new map is returned. *)
Definition redactHeadersMap (σ : MapHeap) (headers : nat)
    (redactHeaders : list string) : nat * MapHeap :=
  let redacted := length σ in
  let σ0 := σ ++ [∅] in
  (redacted,
   map_fold (redact_entry redactHeaders redacted) σ0 (default ∅ (σ !! headers))).

End headers.

(** ** log/slog: values, attributes, loggers *)

Module slog.

(** Go's [any], restricted to the dynamic types this package inspects. *)
Inductive any : Type :=
| Nil
| ProtoMessage (size : Z)
| Bytes (b : list ascii)
| Str (s : string)
| RawMessage (b : list ascii)
| Sizer (size : Z)
| Opaque (tag : string)
| HeaderMap (ref : nat)
| LoggableErrorPtr (ptr : option nat).

Inductive Kind : Type :=
| KindAny | KindBool | KindDuration | KindInt64 | KindString
| KindGroup | KindLogValuer.

Inductive Value : Type :=
| VAny (a : any)
| VBool (b : bool)
| VDuration (d : Z)
| VInt64 (n : Z)
| VString (s : string)
| VGroup (members : list (string * Value))
| VLogValuer (a : any).

Abbreviation Attr := (string * Value)%type.

Definition Value_Kind (v : Value) : Kind :=
  match v with
  | VAny _ => KindAny
  | VBool _ => KindBool
  | VDuration _ => KindDuration
  | VInt64 _ => KindInt64
  | VString _ => KindString
  | VGroup _ => KindGroup
  | VLogValuer _ => KindLogValuer
  end.

(** [Value.Group]: the members of a group. *)
Definition Value_Group (v : Value) : list Attr :=
  match v with
  | VGroup members => members
  | _ => []
  end.

Definition isEmptyGroup (v : Value) : bool :=
  match v with
  | VGroup [] => true
  | _ => false
  end.

(** [slog.GroupValue]: attributes whose value is an empty group are
    removed at construction. *)
Definition GroupValue (attrs : list Attr) : Value :=
  VGroup (filter (λ a : Attr, isEmptyGroup a.2 = false) attrs).

Definition String_ (key value : string) : Attr := (key, VString value).
Definition Int (key : string) (value : Z) : Attr := (key, VInt64 value).
Definition Duration (key : string) (d : Z) : Attr := (key, VDuration d).
Definition Group (key : string) (attrs : list Attr) : Attr := (key, GroupValue attrs).

(** [slog.AnyValue]: the type switch on the dynamic type of the argument. *)
Definition AnyValue (a : any) : Value :=
  match a with
  | Str s => VString s
  | LoggableErrorPtr _ => VLogValuer a
  | _ => VAny a
  end.

Definition Any (key : string) (a : any) : Attr := (key, AnyValue a).

(** [slog.Any] applied to a [slog.Value]: the value is kept as it is. *)
Definition AnyOfValue (key : string) (v : Value) : Attr := (key, v).

(** [slog.Level]. *)
Definition Level := Z.
Definition LevelDebug : Level := -4.
Definition LevelInfo : Level := 0.
Definition LevelWarn : Level := 4.
Definition LevelError : Level := 8.

(** A logger: the verdict of its handler's [Enabled] for a level (handlers
    that decide by the context are not modelled) and the attributes bound
    by [With]. *)
Record Logger : Type := mkLogger {
  Enabled : Level → bool;
  bound : list Attr
}.

Definition With (l : Logger) (attrs : list Attr) : Logger :=
  {| Enabled := Enabled l; bound := bound l ++ attrs |}.

(** One call of [Debug], [Info], [Warn] or [Error] on a logger: the record
    handed over, with the logger's bound attributes in front.  What the
    handler behind the logger does with it is not part of this package. *)
Record LogCall : Type := mkLogCall {
  level : Level;
  msg : string;
  attrs : list Attr
}.

Definition log (l : Logger) (lv : Level) (m : string) (args : list Attr) : LogCall :=
  {| level := lv; msg := m; attrs := bound l ++ args |}.

End slog.

(** ** connectrpc.com/connect: status codes *)

Module connect.

(** [type Code uint32]. *)
Definition Code := N.
Definition CodeCanceled : Code := 1%N.
Definition CodeUnknown : Code := 2%N.
Definition CodeInvalidArgument : Code := 3%N.
Definition CodeDeadlineExceeded : Code := 4%N.
Definition CodeNotFound : Code := 5%N.
Definition CodeAlreadyExists : Code := 6%N.
Definition CodePermissionDenied : Code := 7%N.
Definition CodeResourceExhausted : Code := 8%N.
Definition CodeFailedPrecondition : Code := 9%N.
Definition CodeAborted : Code := 10%N.
Definition CodeOutOfRange : Code := 11%N.
Definition CodeUnimplemented : Code := 12%N.
Definition CodeInternal : Code := 13%N.
Definition CodeUnavailable : Code := 14%N.
Definition CodeDataLoss : Code := 15%N.
Definition CodeUnauthenticated : Code := 16%N.

Definition Code_String (c : Code) : string :=
  match c with
  | 1 => "canceled" | 2 => "unknown" | 3 => "invalid_argument"
  | 4 => "deadline_exceeded" | 5 => "not_found" | 6 => "already_exists"
  | 7 => "permission_denied" | 8 => "resource_exhausted"
  | 9 => "failed_precondition" | 10 => "aborted" | 11 => "out_of_range"
  | 12 => "unimplemented" | 13 => "internal" | 14 => "unavailable"
  | 15 => "data_loss" | 16 => "unauthenticated"
  | _ => "code_" +:+ NilZero.string_of_uint (N.to_uint c)
  end%N.

Record Spec : Type := mkSpec { Procedure : string }.
Record Peer : Type := mkPeer { Addr : string; Protocol : string }.

End connect.

(** ** Go error values, the [errors] package and [connect.Error] *)

Module errors.

(** The package-level error values the code compares against:
    [context.Canceled], [context.DeadlineExceeded],
    [os.ErrDeadlineExceeded] and [io.EOF]. *)
Inductive sentinel : Type :=
| Canceled | DeadlineExceeded | ErrDeadlineExceeded | EOF.

#[global] Instance sentinel_eq_dec : EqDecision sentinel.
Proof. solve_decision. Defined.

(** An error type defined outside this package: its [Error] text, its
    optional [Is] method (as a verdict per sentinel) and its optional
    [LogValue] method. *)
Record UserErr : Type := mkUserErr {
  ue_text : string;
  ue_is : sentinel → bool;
  ue_logvalue : option slog.Value
}.

(** Non-nil error values.  [errorString] is a value made by [errors.New]
    other than the sentinels, [wrapError] one made by [fmt.Errorf] with
    [%w], [ConnectError] a [*connect.Error] with its code and underlying
    error, [UserError] a value of a foreign type with its [Unwrap].
    Chains have one cause per link; interface values that hold a nil
    pointer, types with an [As] method of their own and types whose
    [Unwrap] returns a slice are not part of the model. *)
Inductive error : Type :=
| Sentinel (s : sentinel)
| errorString (text : string)
| wrapError (text : string) (err : error)
| ConnectError (code : connect.Code) (err : option error)
| UserError (u : UserErr) (cause : option error).

Definition sentinel_text (s : sentinel) : string :=
  match s with
  | Canceled => "context canceled"
  | DeadlineExceeded => "context deadline exceeded"
  | ErrDeadlineExceeded => "i/o timeout"
  | EOF => "EOF"
  end.

(** [err.Error()].  For a [*connect.Error] this is the code, followed by
    the message when there is one. *)
Fixpoint Error_text (e : error) : string :=
  match e with
  | Sentinel s => sentinel_text s
  | errorString text => text
  | wrapError text _ => text
  | ConnectError c err =>
      let message := match err with Some u => Error_text u | None => "" end in
      if String.eqb message "" then connect.Code_String c
      else connect.Code_String c +:+ ": " +:+ message
  | UserError u _ => ue_text u
  end.

(** [errors.Is(err, target)] for a sentinel target: equality with the
    target, then the [Is] method, then [Unwrap]. *)
Fixpoint Is (e : error) (target : sentinel) : bool :=
  match e with
  | Sentinel s => bool_decide (s = target)
  | errorString _ => false
  | wrapError _ err => Is err target
  | ConnectError _ err =>
      match err with Some u => Is u target | None => false end
  | UserError u cause =>
      if ue_is u target then true
      else match cause with Some c => Is c target | None => false end
  end.

(** [*connect.Error]: the fields the package reads. *)
Record connect_Error : Type := mkConnectError {
  code : connect.Code;
  err : option error
}.

Definition NewError (c : connect.Code) (underlying : option error) : connect_Error :=
  {| code := c; err := underlying |}.

Definition Code (e : connect_Error) : connect.Code := code e.

Definition Message (e : connect_Error) : string :=
  match err e with
  | Some u => Error_text u
  | None => ""
  end.

Definition Unwrap (e : connect_Error) : option error := err e.

(** A [*connect.Error] used as an [error]. *)
Definition as_error (e : connect_Error) : error := ConnectError (code e) (err e).

(** [errors.As(err, &connectErr)] with [connectErr] of type
    [*connect.Error]: the first value of that type along the chain. *)
Fixpoint As_connect (e : error) : option connect_Error :=
  match e with
  | Sentinel _ => None
  | errorString _ => None
  | wrapError _ err => As_connect err
  | ConnectError c err => Some {| code := c; err := err |}
  | UserError _ cause =>
      match cause with Some c => As_connect c | None => None end
  end.

(** [errors.As(err, &logValuer)] with [logValuer] of type
    [slog.LogValuer]: the first value along the chain that has a
    [LogValue] method; the result here is what that method returns. *)
Fixpoint As_LogValuer (e : error) : option slog.Value :=
  match e with
  | Sentinel _ => None
  | errorString _ => None
  | wrapError _ err => As_LogValuer err
  | ConnectError _ err =>
      match err with Some u => As_LogValuer u | None => None end
  | UserError u cause =>
      match ue_logvalue u with
      | Some v => Some v
      | None => match cause with Some c => As_LogValuer c | None => None end
      end
  end.

End errors.

(** ** errors.go *)

Module errorsgo.
Import errors.

(** [type loggableError struct { *connect.Error }]. *)
Record loggableError : Type := mkLoggableError { Error : connect_Error }.

(** The heap of [loggableError] objects; [*loggableError] is an address. *)
Abbreviation ErrHeap := (list loggableError).

(** The two package-level variables and the objects they point to. *)
Definition errCanceled : nat := 0%nat.
Definition errDeadline : nat := 1%nat.

Definition errCanceled_obj : loggableError :=
  {| Error := NewError connect.CodeCanceled (Some (errorString "request canceled")) |}.
Definition errDeadline_obj : loggableError :=
  {| Error := NewError connect.CodeDeadlineExceeded
                (Some (errorString "request deadline exceeded")) |}.

(** The heap once the package is initialised. *)
Definition init_heap : ErrHeap := [errCanceled_obj; errDeadline_obj].

(** [&loggableError{...}]: a fresh object at the next address. *)
Definition alloc (o : loggableError) (ρ : ErrHeap) : nat * ErrHeap :=
  (length ρ, ρ ++ [o]).

(** [newLoggableError]; a nil [error] is [None], a nil result too. *)
Definition newLoggableError (err : option error) (ρ : ErrHeap) : option nat * ErrHeap :=
  match err with
  | None => (None, ρ)
  | Some e =>
      match As_connect e with
      | Some connectErr =>
          let '(p, ρ') := alloc {| Error := connectErr |} ρ in (Some p, ρ')
      | None =>
          if Is e Canceled then (Some errCanceled, ρ)
          else if Is e DeadlineExceeded || Is e ErrDeadlineExceeded
          then (Some errDeadline, ρ)
          else
            let '(p, ρ') := alloc {| Error := NewError connect.CodeUnknown (Some e) |} ρ in
            (Some p, ρ')
      end
  end.

(** The method [LogValue] of [loggableError] on the object behind a non-nil receiver. *)
Definition LogValue_obj (e : loggableError) : slog.Value :=
  let attrs := [ slog.String_ "code" (connect.Code_String (Code (Error e)));
                 slog.String_ "message" (Message (Error e)) ] in
  let origErr := match Unwrap (Error e) with
                 | Some u => u
                 | None => as_error (Error e)
                 end in
  let attrs :=
    match As_LogValuer origErr with
    | Some logValue =>
        match slog.Value_Kind logValue with
        | slog.KindGroup => attrs ++ slog.Value_Group logValue
        | _ => attrs ++ [slog.AnyOfValue "details" logValue]
        end
    | None => attrs
    end in
  slog.GroupValue attrs.

(** The method [LogValue] through the pointer: a nil receiver gives the zero [Value]. *)
Definition LogValue (e : option nat) (ρ : ErrHeap) : result slog.Value :=
  match e with
  | None => Ok (slog.VAny slog.Nil)
  | Some p =>
      match ρ !! p with
      | Some o => Ok (LogValue_obj o)
      | None => Panic NilDereference
      end
  end.

(** [connErr.Code()] through the pointer. *)
Definition Code_at (p : nat) (ρ : ErrHeap) : result connect.Code :=
  match ρ !! p with
  | Some o => Ok (Code (Error o))
  | None => Panic NilDereference
  end.

End errorsgo.

(** ** Go's [int] on a 64-bit platform *)

Module goint.
Definition min_int : Z := - 2 ^ 63.
Definition max_int : Z := 2 ^ 63 - 1.

(** Two's-complement wrap-around of an arithmetic result. *)
Definition wrap (z : Z) : Z := (z + 2 ^ 63) mod 2 ^ 64 - 2 ^ 63.

(** [n++]. *)
Definition incr (n : Z) : Z := wrap (n + 1).
End goint.

(** ** size.go *)

Module size.
Import slog.

(** [calculateSize]: the type switch, in the order of its cases. *)
Definition calculateSize (payload : any) : Z :=
  match payload with
  | Nil => 0
  | ProtoMessage n => n
  | Bytes b => Z.of_nat (length b)
  | Str s => strings.len s
  | RawMessage b => Z.of_nat (length b)
  | Sizer n => n
  | _ => -1
  end.
End size.

(** ** stream.go *)

Module stream.
Import slog errors size.

(** [connect.StreamingHandlerConn], as seen by this package.  [Send] and
    [Receive] return the error and the next state of the connection;
    [Receive] also returns the message as it stands after the call. *)
Class StreamingHandlerConn (C : Type) : Type := {
  conn_Spec : C → connect.Spec;
  conn_Peer : C → connect.Peer;
  conn_RequestHeader : C → nat;
  conn_Send : C → any → option error * C;
  conn_Receive : C → any → any * option error * C
}.

Section wrapper.
Context {Ctx : Type} {D : Type} `{!StreamingHandlerConn D}.

(** [loggedStreamConn]: the embedded connection and the fields. *)
Record loggedStreamConn : Type := mkLoggedStreamConn {
  embedded : D;
  logger : Logger;
  ctx : Ctx;
  sentCount : Z;
  receivedCount : Z;
  debugEnabled : bool
}.

Definition newLoggedStreamConn (c : Ctx) (conn : D) (l : Logger) : loggedStreamConn :=
  {| embedded := conn; logger := l; ctx := c;
     sentCount := 0; receivedCount := 0;
     debugEnabled := Enabled l LevelDebug |}.

Definition set_embedded (c : loggedStreamConn) (d : D) : loggedStreamConn :=
  {| embedded := d; logger := logger c; ctx := ctx c;
     sentCount := sentCount c; receivedCount := receivedCount c;
     debugEnabled := debugEnabled c |}.

Definition set_sentCount (c : loggedStreamConn) (n : Z) : loggedStreamConn :=
  {| embedded := embedded c; logger := logger c; ctx := ctx c;
     sentCount := n; receivedCount := receivedCount c;
     debugEnabled := debugEnabled c |}.

Definition set_receivedCount (c : loggedStreamConn) (n : Z) : loggedStreamConn :=
  {| embedded := embedded c; logger := logger c; ctx := ctx c;
     sentCount := sentCount c; receivedCount := n;
     debugEnabled := debugEnabled c |}.

(** The wrapper together with the calls made on its logger so far. *)
Definition Wrapped : Type := loggedStreamConn * list LogCall.

(** [Send] of [loggedStreamConn]. *)
Definition Send (w : Wrapped) (msg : any) : option error * Wrapped :=
  let '(c, calls) := w in
  match conn_Send (embedded c) msg with
  | (Some err, d) => (Some err, (set_embedded c d, calls))
  | (None, d) =>
      let c := set_embedded c d in
      let c := set_sentCount c (goint.incr (sentCount c)) in
      let calls :=
        if debugEnabled c then
          calls ++ [log (logger c) LevelDebug "stream message sent"
                      [ Int "number" (sentCount c);
                        Int "size" (calculateSize msg);
                        Any "response" msg ]]
        else calls in
      (None, (c, calls))
  end.

(** [Receive] of [loggedStreamConn]. *)
Definition Receive (w : Wrapped) (msg : any) : any * option error * Wrapped :=
  let '(c, calls) := w in
  match conn_Receive (embedded c) msg with
  | (msg', Some err, d) => (msg', Some err, (set_embedded c d, calls))
  | (msg', None, d) =>
      let c := set_embedded c d in
      let c := set_receivedCount c (goint.incr (receivedCount c)) in
      let calls :=
        if debugEnabled c then
          calls ++ [log (logger c) LevelDebug "stream message received"
                      [ Int "number" (receivedCount c);
                        Int "size" (calculateSize msg');
                        Any "receive" msg' ]]
        else calls in
      (msg', None, (c, calls))
  end.

(** The wrapper is itself a connection; the other methods are promoted
    from the embedded one. *)
#[global] Instance Wrapped_conn : StreamingHandlerConn Wrapped := {
  conn_Spec w := conn_Spec (embedded w.1);
  conn_Peer w := conn_Peer (embedded w.1);
  conn_RequestHeader w := conn_RequestHeader (embedded w.1);
  conn_Send := Send;
  conn_Receive := Receive
}.
End wrapper.
Arguments loggedStreamConn : clear implicits.
Arguments Wrapped : clear implicits.

(** A streaming handler, as a program over the connection it is given:
    it returns, or sends or receives and goes on according to the
    outcome. *)
Inductive StreamingHandler : Type :=
| Return (err : option error)
| DoSend (msg : any) (k : option error → StreamingHandler)
| DoReceive (msg : any) (k : any → option error → StreamingHandler).

(** Running a handler on a connection. *)
Fixpoint run {C} `{!StreamingHandlerConn C} (h : StreamingHandler) (c : C)
    : option error * C :=
  match h with
  | Return err => (err, c)
  | DoSend msg k =>
      let '(e, c') := conn_Send c msg in run (k e) c'
  | DoReceive msg k =>
      let '(msg', e, c') := conn_Receive c msg in run (k msg' e) c'
  end.

End stream.

(** ** options.go and interceptor.go

    The repository holds two revisions of interceptor.go.  The bodies of
    [initRequestLogger], [WrapUnary] and [WrapStreamingHandler] are the
    same in both, up to the [Context] variants of the logging calls; the
    constructor modelled is [New], which replaces a nil logger by a
    discarding one. *)

Module interceptor.
Import slog errors errorsgo size stream headers.

(** [connect.AnyRequest] and [connect.AnyResponse]: what the interceptor
    reads of them.  A header is the address of its map object. *)
Record AnyRequest : Type := mkRequest {
  req_Spec : connect.Spec;
  req_Peer : connect.Peer;
  req_Header : nat;
  req_Any : any
}.

Record AnyResponse : Type := mkResponse {
  res_Header : nat;
  res_Any : any
}.

(** What the interceptor reads and writes besides its arguments: the map
    objects, the [loggableError] objects and the calls made on loggers. *)
Record world : Type := mkWorld {
  maps : MapHeap;
  errs : ErrHeap;
  calls : list LogCall
}.

Definition emit (w : world) (c : LogCall) : world :=
  {| maps := maps w; errs := errs w; calls := calls w ++ [c] |}.

Section with_context.
Context {Ctx : Type}.

(** [ContextLogFunc]; a nil function value is [None]. *)
Definition ContextLogFunc : Type := option (Ctx → list Attr).

Record Options : Type := mkOptions {
  opt_Logger : option Logger;
  opt_RedactHeaders : list string;
  opt_ContextLogFn : ContextLogFunc
}.

Definition Option_ : Type := Options → Options.

Definition WithLogger (l : option Logger) : Option_ := λ o,
  {| opt_Logger := l; opt_RedactHeaders := opt_RedactHeaders o;
     opt_ContextLogFn := opt_ContextLogFn o |}.

Definition WithRedactHeaders (hs : list string) : Option_ := λ o,
  {| opt_Logger := opt_Logger o; opt_RedactHeaders := hs;
     opt_ContextLogFn := opt_ContextLogFn o |}.

Definition WithContextLogFn (fn : ContextLogFunc) : Option_ := λ o,
  {| opt_Logger := opt_Logger o; opt_RedactHeaders := opt_RedactHeaders o;
     opt_ContextLogFn := fn |}.

Record loggingInterceptor : Type := mkInterceptor {
  i_logger : Logger;
  redactHeaders : list string;
  contextLogFn : ContextLogFunc
}.

(** The logger over [slog.DiscardHandler]. *)
Definition discard_logger : Logger := {| Enabled := λ _, false; bound := [] |}.

(** [New]: the defaults, the options in order, and the discarding
    logger in place of a nil one.  [default_logger] is [slog.Default()]. *)
Definition New (default_logger : Logger) (opts : list Option_) : loggingInterceptor :=
  let options := {| opt_Logger := Some default_logger;
                    opt_RedactHeaders := ["authorization"; "token"];
                    opt_ContextLogFn := None |} in
  let options := foldl (λ o opt, opt o) options opts in
  {| i_logger := default discard_logger (opt_Logger options);
     redactHeaders := opt_RedactHeaders options;
     contextLogFn := opt_ContextLogFn options |}.

(** [initRequestLogger].  The two slice expressions are evaluated left
    to right and each can panic. *)
Definition initRequestLogger (i : loggingInterceptor) (c : Ctx)
    (spec : connect.Spec) (peer : connect.Peer) : result Logger :=
  let procedure := strings.TrimPrefix (connect.Procedure spec) "/" in
  let idx := strings.Index procedure "/" in
  service ← strings.slice_to procedure idx;
  method ← strings.slice_from procedure (idx + 1);
  let logger := With (i_logger i)
                  [ String_ "service" service;
                    String_ "method" method;
                    String_ "protocol" (connect.Protocol peer);
                    String_ "addr" (connect.Addr peer) ] in
  let logger :=
    match contextLogFn i with
    | Some fn => foldl (λ l attr, With l [attr]) logger (fn c)
    | None => logger
    end in
  mret logger.

(** The debug record with the redacted copy of a header. *)
Definition debug_headers (i : loggingInterceptor) (logger : Logger)
    (m : string) (header : nat) (before : list Attr) (w : world) : world :=
  let '(hdrs, σ) := redactHeadersMap (maps w) header (redactHeaders i) in
  emit {| maps := σ; errs := errs w; calls := calls w |}
       (log logger LevelDebug m (before ++ [Any "headers" (HeaderMap hdrs)])).

(** The failure branch shared by the two wrappers: classify, attach the
    error, choose the level by comparing the code with [CodeInternal]. *)
Definition log_failure (logger : Logger) (m : string) (logAttrs : list Attr)
    (e : error) (w : world) : result world :=
  let '(connErr, ρ) := newLoggableError (Some e) (errs w) in
  let w := {| maps := maps w; errs := ρ; calls := calls w |} in
  let logAttrs := logAttrs ++ [Any "error" (LoggableErrorPtr connErr)] in
  code ← match connErr with
         | Some p => Code_at p (errs w)
         | None => Panic NilDereference
         end;
  if (code <? connect.CodeInternal)%N
  then mret (emit w (log logger LevelWarn m logAttrs))
  else mret (emit w (log logger LevelError m logAttrs)).

(** A unary handler: the response and the error it returns. *)
Definition UnaryFunc : Type := Ctx → AnyRequest → option AnyResponse * option error.

(** [WrapUnary].  [start] is the reading of [time.Now()] on entry and
    [finish] the reading behind [time.Since(start)]. *)
Definition WrapUnary (i : loggingInterceptor) (next : UnaryFunc)
    (start finish : Z) (c : Ctx) (req : AnyRequest) (w : world)
    : result (option AnyResponse * option error * world) :=
  logger ← initRequestLogger i c (req_Spec req) (req_Peer req);
  let w :=
    if Enabled logger LevelDebug
    then debug_headers i logger "request started" (req_Header req)
           [Any "request" (req_Any req)] w
    else w in
  let '(res, err) := next c req in
  let logAttrs := [Duration "duration" (finish - start)] in
  let reqSize := calculateSize (req_Any req) in
  let logAttrs :=
    if 0 <=? reqSize then logAttrs ++ [Int "request_size" reqSize] else logAttrs in
  match err with
  | Some e =>
      w ← log_failure logger "request failed" logAttrs e w;
      mret (res, err, w)
  | None =>
      r ← match res with Some r => Ok r | None => Panic NilDereference end;
      let w :=
        if Enabled logger LevelDebug
        then debug_headers i logger "response completed" (res_Header r)
               [Any "response" (res_Any r)] w
        else w in
      let resSize := calculateSize (res_Any r) in
      let logAttrs :=
        if 0 <=? resSize then logAttrs ++ [Int "response_size" resSize] else logAttrs in
      mret (res, err, emit w (log logger LevelInfo "request completed" logAttrs))
  end.

(** [WrapStreamingHandler]: the handler runs on the wrapped connection
    and the counters are read after it returns. *)
Definition WrapStreamingHandler {D} `{!StreamingHandlerConn D}
    (i : loggingInterceptor) (next : Ctx → StreamingHandler)
    (start finish : Z) (c : Ctx) (conn : D) (w : world)
    : result (option error * D * world) :=
  logger ← initRequestLogger i c (conn_Spec conn) (conn_Peer conn);
  let w :=
    if Enabled logger LevelDebug
    then debug_headers i logger "stream started" (conn_RequestHeader conn) [] w
    else w in
  let wrappedConn := newLoggedStreamConn c conn logger in
  let '(err, (wrappedConn, cs)) := run (next c) (wrappedConn, calls w) in
  let w := {| maps := maps w; errs := errs w; calls := cs |} in
  let logAttrs :=
    [ Group "messages" [ Int "sent" (sentCount wrappedConn);
                         Int "received" (receivedCount wrappedConn) ];
      Duration "duration" (finish - start) ] in
  match err with
  | Some e =>
      if negb (Is e EOF)
      then
        w ← log_failure logger "stream failed" logAttrs e w;
        mret (err, embedded wrappedConn, w)
      else
        mret (err, embedded wrappedConn,
              emit w (log logger LevelInfo "stream completed" logAttrs))
  | None =>
      mret (err, embedded wrappedConn,
            emit w (log logger LevelInfo "stream completed" logAttrs))
  end.

End with_context.
Arguments ContextLogFunc : clear implicits.
Arguments Options : clear implicits.
Arguments loggingInterceptor : clear implicits.
Arguments UnaryFunc : clear implicits.

End interceptor.

(** * Notions the properties are stated with *)

(** Case-insensitive equality of two names. *)
Definition eq_fold (a b : string) : Prop := strings.ToLower a = strings.ToLower b.

(** [sub] occurs in [s]. *)
Definition substring (sub s : string) : Prop :=
  ∃ pre post : string, s = pre +:+ sub +:+ post.

(** The built-in sensitive names: [authorization], and every name in which
    [token], [secret] or [password] occurs, all without regard to case. *)
Definition builtin_sensitive (key : string) : Prop :=
  eq_fold key "authorization"
  ∨ substring "token" (strings.ToLower key)
  ∨ substring "secret" (strings.ToLower key)
  ∨ substring "password" (strings.ToLower key).

(** A key is sensitive for a configured list of names. *)
Definition sensitive (key : string) (names : list string) : Prop :=
  (∃ n, n ∈ names ∧ eq_fold key n) ∨ builtin_sensitive key.

(** All 256 bytes. *)
Definition all_bytes : list ascii := map ascii_of_nat (seq 0 256).

(** The heap invariant of the package: the two package-level variables
    point to the objects they were initialised with. *)
Definition heap_ok (ρ : errorsgo.ErrHeap) : Prop :=
  ρ !! errorsgo.errCanceled = Some errorsgo.errCanceled_obj
  ∧ ρ !! errorsgo.errDeadline = Some errorsgo.errDeadline_obj.

(** An error the classifier does not recognise: no [*connect.Error] along
    its chain, and neither a cancellation nor a deadline expiry. *)
Definition unrecognized (e : errors.error) : Prop :=
  errors.As_connect e = None
  ∧ errors.Is e errors.Canceled = false
  ∧ errors.Is e errors.DeadlineExceeded = false
  ∧ errors.Is e errors.ErrDeadlineExceeded = false.

(** Data for the examples follow the notions they illustrate. *)

Definition sample_headers : headers.Header :=
  {[ "Authorization" := ["Bearer abc"];
     "X-My-Token" := ["t1"; "t2"];
     "X-Api-Key" := ["k"];
     "Content-Type" := ["application/json"] ]}.

(** The error type of the tests: [detailedError], whose [LogValue] is a
    group of two strings. *)
Definition detailedError (field reason : string) : errors.error :=
  errors.UserError
    {| errors.ue_text := "validation error";
       errors.ue_is := λ _, false;
       errors.ue_logvalue :=
         Some (slog.GroupValue [slog.String_ "field" field;
                                slog.String_ "reason" reason]) |}
    None.

(** An error whose [LogValue] is a group without members. *)
Definition emptyGroupError : errors.error :=
  errors.UserError
    {| errors.ue_text := "empty";
       errors.ue_is := λ _, false;
       errors.ue_logvalue := Some (slog.GroupValue []) |}
    None.

(** The error whose details [LogValue] looks for: the cause under the
    connect error, or the connect error itself when it has no cause. *)
Definition origErr (o : errorsgo.loggableError) : errors.error :=
  match errors.Unwrap (errorsgo.Error o) with
  | Some u => u
  | None => errors.as_error (errorsgo.Error o)
  end.

(** The two fields every structured form starts with. *)
Definition base_fields (o : errorsgo.loggableError) : list slog.Attr :=
  [ ("code", slog.VString (connect.Code_String (errors.Code (errorsgo.Error o))));
    ("message", slog.VString (errors.Message (errorsgo.Error o))) ].

(** A classified error exposes structured log attributes, as the value [v]:
    a [slog.LogValuer] is found from its original error, and the value it
    returns is not a group without members. *)
Definition exposes (o : errorsgo.loggableError) (v : slog.Value) : Prop :=
  errors.As_LogValuer (origErr o) = Some v ∧ slog.isEmptyGroup v = false.

(** What [slog.GroupValue] guarantees of the groups it builds: no member is
    an empty group. *)
Definition well_formed (v : slog.Value) : Prop :=
  match v with
  | slog.VGroup members => Forall (λ a : slog.Attr, slog.isEmptyGroup a.2 = false) members
  | _ => True
  end.

(** The values a Go [int] can hold. *)
Definition in_range (z : Z) : Prop := goint.min_int ≤ z ≤ goint.max_int.

(** The numbers of sends and of receives that succeed on the underlying
    connection while a handler runs on it. *)
Fixpoint tally {C} `{!stream.StreamingHandlerConn C}
    (h : stream.StreamingHandler) (c : C) : nat * nat :=
  match h with
  | stream.Return _ => (0%nat, 0%nat)
  | stream.DoSend msg k =>
      let '(e, c') := stream.conn_Send c msg in
      let '(n, m) := tally (k e) c' in
      (match e with None => S n | Some _ => n end, m)
  | stream.DoReceive msg k =>
      let '(msg', e, c') := stream.conn_Receive c msg in
      let '(n, m) := tally (k msg' e) c' in
      (n, match e with None => S m | Some _ => m end)
  end.

(** A connection for the examples: its state is the number of operations
    it still accepts; after that every send and receive fails with
    [io.EOF]. *)
#[global] Instance budget_conn : stream.StreamingHandlerConn nat := {
  conn_Spec _ := {| connect.Procedure := "/acme.v1.Chat/Talk" |};
  conn_Peer _ := {| connect.Addr := "10.0.0.1:443"; connect.Protocol := "grpc" |};
  conn_RequestHeader _ := 0%nat;
  conn_Send d _ :=
    match d with
    | O => (Some (errors.Sentinel errors.EOF), O)
    | S d' => (None, d')
    end;
  conn_Receive d msg :=
    match d with
    | O => (msg, Some (errors.Sentinel errors.EOF), O)
    | S d' => (slog.Str "ping", None, d')
    end
}.

(** A handler that sends three messages, receives until the first failure
    (at most three times) and returns the error of the last receive. *)
Definition sample_stream_handler : stream.StreamingHandler :=
  stream.DoSend (slog.Str "a") (λ _,
  stream.DoSend (slog.Str "b") (λ _,
  stream.DoSend (slog.Str "c") (λ _,
  stream.DoReceive slog.Nil (λ _ e1,
  match e1 with
  | Some _ => stream.Return e1
  | None =>
      stream.DoReceive slog.Nil (λ _ e2,
      match e2 with
      | Some _ => stream.Return e2
      | None => stream.DoReceive slog.Nil (λ _ e3, stream.Return e3)
      end)
  end)))).

Definition quiet_logger : slog.Logger :=
  {| slog.Enabled := λ l, 0 <=? l; slog.bound := [] |}.

(** A procedure identifier the request logger can split: once a leading
    separator is stripped, a separator remains. *)
Definition splittable (procedure : string) : Prop :=
  substring "/" (strings.TrimPrefix procedure "/").

(** The logger [initRequestLogger] builds for a service and a method. *)
Definition request_logger {Ctx} (i : interceptor.loggingInterceptor Ctx) (c : Ctx)
    (service method : string) (peer : connect.Peer) : slog.Logger :=
  let base := slog.With (interceptor.i_logger i)
                [ ("service", slog.VString service);
                  ("method", slog.VString method);
                  ("protocol", slog.VString (connect.Protocol peer));
                  ("addr", slog.VString (connect.Addr peer)) ] in
  match interceptor.contextLogFn i with
  | Some fn => foldl (λ l attr, slog.With l [attr]) base (fn c)
  | None => base
  end.

Definition sample_interceptor : interceptor.loggingInterceptor unit :=
  interceptor.New quiet_logger
    [interceptor.WithRedactHeaders ["x-api-key"];
     interceptor.WithContextLogFn (Some (λ _, [("trace_id", slog.VString "123")]))].

Definition sample_peer : connect.Peer :=
  {| connect.Addr := "10.0.0.1:443"; connect.Protocol := "connect" |}.

Definition sample_request : interceptor.AnyRequest :=
  {| interceptor.req_Spec := {| connect.Procedure := "/acme.v1.Ping/Echo" |};
     interceptor.req_Peer := sample_peer;
     interceptor.req_Header := 0%nat;
     interceptor.req_Any := slog.Str "hello" |}.

Definition sample_world : interceptor.world :=
  {| interceptor.maps := [sample_headers];
     interceptor.errs := errorsgo.init_heap;
     interceptor.calls := [] |}.

(** Handlers for the examples: one fails with a plain error, one with a
    connect error of code internal, one succeeds. *)
Definition failing_plain : interceptor.UnaryFunc unit :=
  λ _ _, (None, Some (errors.errorString "boom")).

Definition failing_internal : interceptor.UnaryFunc unit :=
  λ _ _, (None, Some (errors.ConnectError connect.CodeInternal
                        (Some (errors.errorString "db down")))).

Definition succeeding : interceptor.UnaryFunc unit :=
  λ _ _, (Some {| interceptor.res_Header := 0%nat;
                  interceptor.res_Any := slog.Str "world" |}, None).

(** What a step of the interceptor may do to the world besides its final
    record: keep the maps that exist, keep the error heap, add debug
    records. *)
Definition debug_step (w w1 : interceptor.world) : Prop :=
  (∀ a M, interceptor.maps w !! a = Some M → interceptor.maps w1 !! a = Some M)
  ∧ interceptor.errs w1 = interceptor.errs w
  ∧ ∃ pre, interceptor.calls w1 = interceptor.calls w ++ pre
           ∧ Forall (λ r, slog.level r = slog.LevelDebug) pre.

(** The attributes both summaries of a unary call start with. *)
Definition unary_attrs (start finish : Z) (req : interceptor.AnyRequest) : list slog.Attr :=
  if 0 <=? size.calculateSize (interceptor.req_Any req)
  then [ ("duration", slog.VDuration (finish - start));
         ("request_size", slog.VInt64 (size.calculateSize (interceptor.req_Any req))) ]
  else [ ("duration", slog.VDuration (finish - start)) ].


(** The content [redactHeadersMap] gives the new map for the entries [H]. *)
Definition redacted_copy (names : list string) (H : headers.Header) : headers.Header :=
  map_imap (λ k v, Some (if headers.shouldRedactHeader k names
                         then headers.REDACTED else v)) H.

(** The connect error behind the pointer the classifier returns for [e]. *)
Definition classified (e : errors.error) (ρ : errorsgo.ErrHeap) : option errors.connect_Error :=
  let '(p, ρ') := errorsgo.newLoggableError (Some e) ρ in
  match p with
  | Some a =>
      match ρ' !! a with
      | Some o => Some (errorsgo.Error o)
      | None => None
      end
  | None => None
  end.

(** The world after the optional debug record with the redacted copy of
    the header at [header]. *)
Definition after_debug {Ctx} (i : interceptor.loggingInterceptor Ctx)
    (logger : slog.Logger) (m : string) (header : nat) (before : list slog.Attr)
    (w : interceptor.world) : interceptor.world :=
  if slog.Enabled logger slog.LevelDebug
  then {| interceptor.maps :=
            interceptor.maps w
            ++ [redacted_copy (interceptor.redactHeaders i)
                  (default ∅ (interceptor.maps w !! header))];
          interceptor.errs := interceptor.errs w;
          interceptor.calls :=
            interceptor.calls w
            ++ [ {| slog.level := slog.LevelDebug;
                    slog.msg := m;
                    slog.attrs :=
                      slog.bound logger ++ before
                      ++ [("headers",
                           slog.VAny (slog.HeaderMap (length (interceptor.maps w))))] |} ] |}
  else w.

Definition verbose_logger : slog.Logger :=
  {| slog.Enabled := λ _, true; slog.bound := [] |}.


(** A handler that fails with a wrapped [context.Canceled]. *)
Definition failing_canceled : interceptor.UnaryFunc unit :=
  λ _ _, (None, Some (errors.wrapError "lookup: context canceled"
                        (errors.Sentinel errors.Canceled))).

(** The numbers of debug records for sends and for receives in a log. *)
Definition sent_records (cs : list slog.LogCall) : nat :=
  length (filter (λ x, slog.msg x = "stream message sent") cs).

Definition received_records (cs : list slog.LogCall) : nat :=
  length (filter (λ x, slog.msg x = "stream message received") cs).

(** Text within ASCII: every byte is below 128.  On such text the string
    functions above are those of Go's library exactly; the properties that
    rest on case folding are stated for it. *)
Definition ascii_text (s : string) : Prop :=
  Forall (λ c, (nat_of_ascii c < 128)%nat) (String.list_ascii_of_string s).


(** * Properties *)

(** ** Strings *)

Lemma all_bytes_complete (c : ascii) : In c all_bytes.
Proof.
  unfold all_bytes. rewrite <- (ascii_nat_embedding c).
  apply in_map, in_seq. pose proof (nat_ascii_bounded c). lia.
Qed.

Lemma forall_bytes (f : ascii → bool) :
  forallb f all_bytes = true → ∀ c, f c = true.
Proof.
  intros H c. rewrite forallb_forall in H. apply H, all_bytes_complete.
Qed.

Lemma forall_bytes2 (f : ascii → ascii → bool) :
  forallb (λ a, forallb (f a) all_bytes) all_bytes = true → ∀ a b, f a b = true.
Proof.
  intros H a b. apply (forall_bytes (f a)).
  apply (forall_bytes (λ a, forallb (f a) all_bytes) H).
Qed.

Lemma lower_byte_idem (c : ascii) :
  strings.lower_byte (strings.lower_byte c) = strings.lower_byte c.
Proof.
  apply Ascii.eqb_eq. revert c. apply forall_bytes. vm_compute. reflexivity.
Qed.

(** One step of [EqualFold] accepts two bytes exactly when they have the
    same lower-case form. *)
Lemma fold_byte_eq_spec (a b : ascii) :
  strings.fold_byte_eq a b = true ↔ strings.lower_byte a = strings.lower_byte b.
Proof.
  rewrite <- Ascii.eqb_eq.
  assert (Bool.eqb (strings.fold_byte_eq a b)
            (Ascii.eqb (strings.lower_byte a) (strings.lower_byte b)) = true) as H.
  { revert a b. apply forall_bytes2. vm_compute. reflexivity. }
  apply Bool.eqb_prop in H. rewrite H. reflexivity.
Qed.

Lemma ToLower_idem (s : string) :
  strings.ToLower (strings.ToLower s) = strings.ToLower s.
Proof.
  induction s as [|c s IH]; simpl; [reflexivity|].
  rewrite lower_byte_idem, IH. reflexivity.
Qed.

Lemma EqualFold_spec (s t : string) :
  strings.EqualFold s t = true ↔ eq_fold s t.
Proof.
  unfold eq_fold. revert t.
  induction s as [|a s IH]; intros [|b t]; simpl; try (split; [reflexivity | reflexivity]);
    try (split; discriminate).
  destruct (strings.fold_byte_eq a b) eqn:E.
  - apply fold_byte_eq_spec in E. rewrite IH, E. split; [intros ->; reflexivity|].
    intros H. injection H. auto.
  - split; [discriminate|]. intros H. injection H as H1 H2.
    apply fold_byte_eq_spec in H1. congruence.
Qed.

(** The comparison made in the loop of [shouldRedactHeader]. *)
Lemma EqualFold_lowered (key h : string) :
  strings.EqualFold (strings.ToLower key) h = true ↔ eq_fold key h.
Proof.
  rewrite EqualFold_spec. unfold eq_fold. rewrite ToLower_idem. reflexivity.
Qed.

Lemma append_cons (c : ascii) (p q : string) :
  String c p +:+ q = String c (p +:+ q).
Proof. reflexivity. Qed.

Lemma HasPrefix_spec (s p : string) :
  strings.HasPrefix s p = true ↔ ∃ post, s = p +:+ post.
Proof.
  revert s. induction p as [|c p IH]; intros s.
  - split; [intros _; exists s; reflexivity | destruct s; reflexivity].
  - destruct s as [|d s].
    + split; [discriminate | intros [post H]; discriminate].
    + cbn [strings.HasPrefix]. destruct (Ascii.eqb d c) eqn:E.
      * apply Ascii.eqb_eq in E as ->. rewrite IH.
        split; intros [post H]; exists post; [rewrite H; reflexivity | ].
        rewrite append_cons in H. congruence.
      * split; [discriminate|]. intros [post H]. rewrite append_cons in H. injection H as -> _.
        rewrite Ascii.eqb_refl in E. discriminate.
Qed.

Lemma Index_nil (sub : string) :
  strings.Index "" sub = if strings.HasPrefix "" sub then 0 else -1.
Proof. reflexivity. Qed.

Lemma Index_cons (c : ascii) (s sub : string) :
  strings.Index (String c s) sub =
    if strings.HasPrefix (String c s) sub then 0
    else if strings.Index s sub <? 0 then -1 else strings.Index s sub + 1.
Proof. reflexivity. Qed.

Lemma Index_lower_bound (s sub : string) : -1 ≤ strings.Index s sub.
Proof.
  induction s as [|c s IH].
  - rewrite Index_nil. destruct (strings.HasPrefix "" sub); lia.
  - rewrite Index_cons. destruct (strings.HasPrefix (String c s) sub); [lia|].
    destruct (Z.ltb_spec (strings.Index s sub) 0); lia.
Qed.

(** [Index] finds an occurrence exactly when there is one. *)
Lemma Index_found (s sub : string) :
  0 ≤ strings.Index s sub ↔ substring sub s.
Proof.
  unfold substring. split.
  - induction s as [|c s IH].
    + rewrite Index_nil. destruct (strings.HasPrefix "" sub) eqn:E; [|lia].
      apply HasPrefix_spec in E as [post E]. intros _. exists "", post. exact E.
    + rewrite Index_cons. destruct (strings.HasPrefix (String c s) sub) eqn:E.
      * apply HasPrefix_spec in E as [post E]. intros _. exists "", post. exact E.
      * destruct (Z.ltb_spec (strings.Index s sub) 0); [lia|]. intros _.
        destruct IH as (pre & post & ->); [lia|].
        exists (String c pre), post. reflexivity.
  - intros (pre & post & ->). induction pre as [|c pre IH].
    + change ("" +:+ sub +:+ post) with (sub +:+ post).
      assert (strings.HasPrefix (sub +:+ post) sub = true) as E
        by (apply HasPrefix_spec; exists post; reflexivity).
      destruct (sub +:+ post) as [|d r].
      * rewrite Index_nil, E. lia.
      * rewrite Index_cons, E. lia.
    + rewrite append_cons, Index_cons.
      destruct (strings.HasPrefix _ sub); [lia|].
      destruct (Z.ltb_spec (strings.Index (pre +:+ sub +:+ post) sub) 0); lia.
Qed.

Lemma Contains_spec (s sub : string) :
  strings.Contains s sub = true ↔ substring sub s.
Proof.
  unfold strings.Contains. rewrite Z.leb_le. apply Index_found.
Qed.

Lemma Index_absent (s sub : string) :
  strings.Index s sub = -1 ↔ ¬ substring sub s.
Proof.
  rewrite <- Index_found. pose proof (Index_lower_bound s sub). lia.
Qed.

(** ** The redactor *)

Lemma shouldRedactHeader_spec (key : string) (names : list string) :
  headers.shouldRedactHeader key names = true ↔ sensitive key names.
Proof.
  unfold headers.shouldRedactHeader, sensitive, builtin_sensitive.
  destruct (existsb _ names) eqn:E.
  - apply existsb_exists in E as (h & Hin & Hh).
    split; [intros _|reflexivity]. left. exists h.
    split; [apply list_elem_of_In, Hin | apply EqualFold_lowered, Hh].
  - rewrite !Bool.orb_true_iff, String.eqb_eq, !Contains_spec.
    unfold eq_fold at 2. change (strings.ToLower "authorization") with "authorization".
    split; [intros H; right; tauto|].
    intros [(n & Hin & Hn)|H]; [|tauto]. exfalso.
    assert (existsb (λ h, strings.EqualFold (strings.ToLower key) h) names = true);
      [|congruence].
    apply existsb_exists. exists n.
    split; [apply list_elem_of_In, Hin | apply EqualFold_lowered, Hn].
Qed.

(** What the loop of [redactHeadersMap] builds from the entries of [H]. *)
Lemma redactHeadersMap_fold (σ : list headers.Header) (names : list string)
    (H : headers.Header) :
  map_fold (headers.redact_entry names (length σ)) (σ ++ [∅]) H =
    σ ++ [map_imap (λ k v, Some (if headers.shouldRedactHeader k names
                                  then headers.REDACTED else v)) H].
Proof.
  apply (map_fold_weak_ind (λ r m, r = σ ++ [map_imap _ m])).
  - rewrite map_imap_empty. reflexivity.
  - intros k v m r Hk ->. rewrite map_imap_insert.
    unfold headers.redact_entry.
    rewrite <- (Nat.add_0_r (length σ)).
    destruct (headers.shouldRedactHeader k names);
      rewrite alter_app_r; reflexivity.
Qed.

(** Deciding [ascii_text] by computation. *)
Lemma ascii_text_decide (s : string) :
  forallb (λ c, Nat.ltb (nat_of_ascii c) 128) (String.list_ascii_of_string s) = true →
  ascii_text s.
Proof.
  unfold ascii_text. intros Hb. apply Forall_forall. intros c Hc.
  rewrite forallb_forall in Hb. apply Nat.ltb_lt, Hb, list_elem_of_In, Hc.
Qed.



(** ** The error classifier *)

Lemma init_heap_ok : heap_ok errorsgo.init_heap.
Proof. split; reflexivity. Qed.

Lemma heap_ok_length (ρ : errorsgo.ErrHeap) : heap_ok ρ → (2 ≤ length ρ)%nat.
Proof.
  intros [_ H]. apply lookup_lt_Some in H. unfold errorsgo.errDeadline in H. lia.
Qed.

Lemma heap_ok_app (ρ : errorsgo.ErrHeap) (o : errorsgo.loggableError) :
  heap_ok ρ → heap_ok (ρ ++ [o]).
Proof.
  intros [H1 H2]. split; (rewrite lookup_app_l; [assumption|]);
    eapply lookup_lt_Some; eassumption.
Qed.

Lemma alloc_lookup (ρ : errorsgo.ErrHeap) (o : errorsgo.loggableError) :
  (ρ ++ [o]) !! length ρ = Some o.
Proof. rewrite lookup_app_r by lia. rewrite Nat.sub_diag. reflexivity. Qed.

(** The classifier only ever appends to the heap, so the invariant holds
    after every call. *)
Lemma newLoggableError_heap_ok (err : option errors.error) (ρ : errorsgo.ErrHeap) :
  heap_ok ρ → heap_ok (errorsgo.newLoggableError err ρ).2.
Proof.
  intros Hok. unfold errorsgo.newLoggableError, errorsgo.alloc.
  destruct err as [e|]; [|exact Hok].
  destruct (errors.As_connect e); [apply heap_ok_app, Hok|].
  destruct (errors.Is e errors.Canceled); [exact Hok|].
  destruct (_ || _); [exact Hok | apply heap_ok_app, Hok].
Qed.

(** The classifier's result is nil exactly for a nil error; for any other
    error it is a pointer to an object of the heap it returns. *)
Lemma newLoggableError_valid (e : errors.error) (ρ : errorsgo.ErrHeap) :
  heap_ok ρ →
  ∃ p ρ' o, errorsgo.newLoggableError (Some e) ρ = (Some p, ρ') ∧ ρ' !! p = Some o.
Proof.
  intros [H1 H2]. unfold errorsgo.newLoggableError, errorsgo.alloc.
  destruct (errors.As_connect e); [eexists _, _, _; split; [reflexivity|apply alloc_lookup]|].
  destruct (errors.Is e errors.Canceled); [eexists _, _, _; split; [reflexivity|exact H1]|].
  destruct (_ || _); [eexists _, _, _; split; [reflexivity|exact H2]|].
  eexists _, _, _; split; [reflexivity|apply alloc_lookup].
Qed.

(** C2: classification is total.  A nil error gives nil and leaves the heap
    alone; every non-nil error gives a non-nil pointer to an object; when a
    [*connect.Error] is reachable by unwrapping, the object holds that very
    error, hence its code and its message; an error that is not recognised
    gets code unknown and its own text as message. *)
Theorem newLoggableError_classifies (ρ : errorsgo.ErrHeap) :
  heap_ok ρ →
  errorsgo.newLoggableError None ρ = (None, ρ)
  ∧ (∀ e, ∃ p ρ' o,
        errorsgo.newLoggableError (Some e) ρ = (Some p, ρ') ∧ ρ' !! p = Some o)
  ∧ (∀ e ce, errors.As_connect e = Some ce →
        ∃ p ρ' o,
          errorsgo.newLoggableError (Some e) ρ = (Some p, ρ') ∧ ρ' !! p = Some o
          ∧ errorsgo.Error o = ce
          ∧ errors.Code (errorsgo.Error o) = errors.code ce
          ∧ errors.Message (errorsgo.Error o) = errors.Message ce)
  ∧ (∀ c u,
        ∃ p ρ' o,
          errorsgo.newLoggableError (Some (errors.ConnectError c u)) ρ = (Some p, ρ')
          ∧ ρ' !! p = Some o
          ∧ errors.Code (errorsgo.Error o) = c
          ∧ errors.Message (errorsgo.Error o) = from_option errors.Error_text "" u)
  ∧ (∀ e, unrecognized e →
        ∃ p ρ' o,
          errorsgo.newLoggableError (Some e) ρ = (Some p, ρ') ∧ ρ' !! p = Some o
          ∧ errors.Code (errorsgo.Error o) = connect.CodeUnknown
          ∧ errors.Message (errorsgo.Error o) = errors.Error_text e).
Proof.
  intros Hok. split; [reflexivity|].
  split; [intros e; apply newLoggableError_valid, Hok|].
  split.
  { intros e ce He. unfold errorsgo.newLoggableError, errorsgo.alloc. rewrite He.
    eexists _, _, _. split; [reflexivity|]. split; [apply alloc_lookup|].
    repeat split. }
  split.
  { intros c u. unfold errorsgo.newLoggableError, errorsgo.alloc. cbn [errors.As_connect].
    eexists _, _, _. split; [reflexivity|]. split; [apply alloc_lookup|].
    split; [reflexivity|]. destruct u; reflexivity. }
  intros e (H1 & H2 & H3 & H4).
  unfold errorsgo.newLoggableError, errorsgo.alloc. rewrite H1, H2, H3, H4. cbn [orb].
  eexists _, _, _. split; [reflexivity|]. split; [apply alloc_lookup|].
  split; reflexivity.
Qed.

Lemma newLoggableError_classifies_witness :
  errorsgo.newLoggableError None errorsgo.init_heap = (None, errorsgo.init_heap)
  ∧ errorsgo.newLoggableError (Some (errors.errorString "something went wrong"))
      errorsgo.init_heap
    = (Some 2%nat,
       errorsgo.init_heap ++
         [ {| errorsgo.Error :=
                errors.NewError connect.CodeUnknown
                  (Some (errors.errorString "something went wrong")) |} ]).
Proof.
  pose proof (newLoggableError_classifies errorsgo.init_heap init_heap_ok) as (H & _).
  split; [exact H | reflexivity].
Defined.

(** C6: on every heap the package can be in, classifying a context
    cancellation returns the pointer [errCanceled] and allocates nothing,
    and the object behind it has code canceled and message "request
    canceled"; classifying a deadline expiry, the context one or the one of
    package os, returns the pointer [errDeadline], whose object has code
    deadline-exceeded and message "request deadline exceeded".  The same
    holds for errors that wrap these without a connect error along the
    chain, and the heap invariant is kept by every classification, so two
    calls at any two times return the same pointer. *)
Theorem newLoggableError_singletons (ρ : errorsgo.ErrHeap) :
  heap_ok ρ →
  errorsgo.newLoggableError (Some (errors.Sentinel errors.Canceled)) ρ
    = (Some errorsgo.errCanceled, ρ)
  ∧ errorsgo.newLoggableError (Some (errors.Sentinel errors.DeadlineExceeded)) ρ
    = (Some errorsgo.errDeadline, ρ)
  ∧ errorsgo.newLoggableError (Some (errors.Sentinel errors.ErrDeadlineExceeded)) ρ
    = (Some errorsgo.errDeadline, ρ)
  ∧ (∀ e, errors.As_connect e = None → errors.Is e errors.Canceled = true →
        errorsgo.newLoggableError (Some e) ρ = (Some errorsgo.errCanceled, ρ))
  ∧ (∀ e, errors.As_connect e = None → errors.Is e errors.Canceled = false →
        errors.Is e errors.DeadlineExceeded = true
        ∨ errors.Is e errors.ErrDeadlineExceeded = true →
        errorsgo.newLoggableError (Some e) ρ = (Some errorsgo.errDeadline, ρ))
  ∧ (∃ o, ρ !! errorsgo.errCanceled = Some o
          ∧ errors.Code (errorsgo.Error o) = connect.CodeCanceled
          ∧ errors.Message (errorsgo.Error o) = "request canceled")
  ∧ (∃ o, ρ !! errorsgo.errDeadline = Some o
          ∧ errors.Code (errorsgo.Error o) = connect.CodeDeadlineExceeded
          ∧ errors.Message (errorsgo.Error o) = "request deadline exceeded")
  ∧ (∀ err, heap_ok (errorsgo.newLoggableError err ρ).2)
  ∧ (∀ ρ2, heap_ok ρ2 →
        (errorsgo.newLoggableError (Some (errors.Sentinel errors.Canceled)) ρ).1
        = (errorsgo.newLoggableError (Some (errors.Sentinel errors.Canceled)) ρ2).1
        ∧ (errorsgo.newLoggableError (Some (errors.Sentinel errors.DeadlineExceeded)) ρ).1
        = (errorsgo.newLoggableError (Some (errors.Sentinel errors.ErrDeadlineExceeded)) ρ2).1).
Proof.
  intros Hok. pose proof Hok as [H1 H2].
  split; [reflexivity|]. split; [reflexivity|]. split; [reflexivity|].
  split.
  { intros e Ha Hc. unfold errorsgo.newLoggableError. rewrite Ha, Hc. reflexivity. }
  split.
  { intros e Ha Hc Hd. unfold errorsgo.newLoggableError. rewrite Ha, Hc.
    destruct Hd as [-> | ->]; [reflexivity|].
    rewrite Bool.orb_true_r. reflexivity. }
  split.
  { exists errorsgo.errCanceled_obj. split; [exact H1|]. split; reflexivity. }
  split.
  { exists errorsgo.errDeadline_obj. split; [exact H2|]. split; reflexivity. }
  split.
  { intros err. apply newLoggableError_heap_ok, Hok. }
  intros ρ2 _. split; reflexivity.
Qed.

Lemma newLoggableError_singletons_witness :
  errorsgo.newLoggableError (Some (errors.Sentinel errors.Canceled)) errorsgo.init_heap
    = (Some errorsgo.errCanceled, errorsgo.init_heap)
  ∧ errorsgo.newLoggableError
      (Some (errors.wrapError "read: context deadline exceeded"
               (errors.Sentinel errors.DeadlineExceeded))) errorsgo.init_heap
    = (Some errorsgo.errDeadline, errorsgo.init_heap).
Proof.
  pose proof (newLoggableError_singletons errorsgo.init_heap init_heap_ok)
    as (H1 & _ & _ & _ & H5 & _).
  split; [exact H1|]. apply H5; [reflexivity | reflexivity | left; reflexivity].
Defined.

(** C10: whenever a [*connect.Error] is reachable by unwrapping, also when
    the error wraps or reports a cancellation or a deadline expiry, the
    classifier allocates a new object that holds that connect error, with
    its code and message; the result is neither singleton.  The input of
    the test, a connect error with code aborted over [context.Canceled],
    gives code aborted and message "context canceled". *)
Theorem newLoggableError_connect_precedence
    (ρ : errorsgo.ErrHeap) (e : errors.error) (ce : errors.connect_Error) :
  heap_ok ρ →
  errors.As_connect e = Some ce →
  ∃ p o,
    errorsgo.newLoggableError (Some e) ρ = (Some p, ρ ++ [o])
    ∧ (ρ ++ [o]) !! p = Some o
    ∧ p ≠ errorsgo.errCanceled ∧ p ≠ errorsgo.errDeadline
    ∧ ρ !! p = None
    ∧ errorsgo.Error o = ce
    ∧ errors.Code (errorsgo.Error o) = errors.code ce
    ∧ errors.Message (errorsgo.Error o) = errors.Message ce
    ∧ (e = errors.ConnectError connect.CodeAborted (Some (errors.Sentinel errors.Canceled)) →
         errors.Is e errors.Canceled = true
         ∧ errors.Code (errorsgo.Error o) = connect.CodeAborted
         ∧ errors.Message (errorsgo.Error o) = "context canceled").
Proof.
  intros Hok He. apply heap_ok_length in Hok.
  unfold errorsgo.newLoggableError, errorsgo.alloc. rewrite He.
  eexists _, _. split; [reflexivity|]. split; [apply alloc_lookup|].
  unfold errorsgo.errCanceled, errorsgo.errDeadline.
  split; [lia|]. split; [lia|]. split; [apply lookup_ge_None; lia|].
  split; [reflexivity|]. split; [reflexivity|]. split; [reflexivity|].
  intros ->. cbn in He. injection He as <-. repeat split.
Qed.

Lemma newLoggableError_connect_precedence_witness :
  ∃ p o,
    errorsgo.newLoggableError
      (Some (errors.ConnectError connect.CodeAborted
               (Some (errors.Sentinel errors.Canceled)))) errorsgo.init_heap
    = (Some p, errorsgo.init_heap ++ [o])
    ∧ p ≠ errorsgo.errCanceled ∧ p ≠ errorsgo.errDeadline
    ∧ errors.Code (errorsgo.Error o) = connect.CodeAborted
    ∧ errors.Message (errorsgo.Error o) = "context canceled".
Proof.
  destruct (newLoggableError_connect_precedence errorsgo.init_heap
              (errors.ConnectError connect.CodeAborted
                 (Some (errors.Sentinel errors.Canceled)))
              (errors.NewError connect.CodeAborted
                 (Some (errors.Sentinel errors.Canceled)))
              init_heap_ok eq_refl)
    as (p & o & H1 & _ & H3 & H4 & _ & _ & _ & _ & H9).
  destruct (H9 eq_refl) as (_ & Hc & Hm).
  exists p, o. repeat split; assumption.
Defined.

(** ** The structured form of a classified error *)

Lemma filter_all {A} (P : A → Prop) `{!∀ x, Decision (P x)} (l : list A) :
  Forall P l → filter P l = l.
Proof.
  induction 1 as [|x l Hx _ IH]; [reflexivity|].
  rewrite filter_cons_True by assumption. rewrite IH. reflexivity.
Qed.

Lemma GroupValue_well_formed (attrs : list slog.Attr) :
  well_formed (slog.GroupValue attrs).
Proof.
  unfold slog.GroupValue, well_formed. apply Forall_forall.
  intros a Ha. apply list_elem_of_filter in Ha as [Ha _]. exact Ha.
Qed.

Lemma LogValue_obj_unfold (o : errorsgo.loggableError) :
  errorsgo.LogValue_obj o =
    slog.GroupValue
      (match errors.As_LogValuer (origErr o) with
       | Some logValue =>
           match slog.Value_Kind logValue with
           | slog.KindGroup => base_fields o ++ slog.Value_Group logValue
           | _ => base_fields o ++ [("details", logValue)]
           end
       | None => base_fields o
       end).
Proof. reflexivity. Qed.

(** A group without members exposes no attribute: the error below has a
    [LogValue] method, and the structured form of its classification is
    code and message alone. *)
Lemma LogValue_empty_group_two_fields :
  let o := {| errorsgo.Error :=
                errors.NewError connect.CodeUnknown (Some emptyGroupError) |} in
  errorsgo.newLoggableError (Some emptyGroupError) errorsgo.init_heap
    = (Some 2%nat, errorsgo.init_heap ++ [o])
  ∧ errors.As_LogValuer (origErr o) = Some (slog.VGroup [])
  ∧ errorsgo.LogValue (Some 2%nat) (errorsgo.init_heap ++ [o])
    = Ok (slog.VGroup [ ("code", slog.VString "unknown");
                        ("message", slog.VString "empty") ])
  ∧ ¬ (2 < length (slog.Value_Group (errorsgo.LogValue_obj o)))%nat.
Proof.
  cbv zeta. split; [reflexivity|]. split; [reflexivity|]. split; [reflexivity|].
  vm_compute. lia.
Qed.

(** C7: the structured form always starts with code and message.  An
    error exposes structured log attributes when a [slog.LogValuer] is
    found from the original error (the cause under the wrapper, or the
    wrapper itself when there is no cause) and its value is not a group
    without members.  Then the form has strictly more than two fields: the
    members of a group, as [slog.GroupValue] builds groups, follow code and
    message directly, and any other value follows under the single key
    [details].  When nothing is exposed, because no [slog.LogValuer] is
    found or because its group has no member, the form is exactly code and
    message. *)
Theorem LogValue_fields (o : errorsgo.loggableError) :
  (∀ v, exposes o v → well_formed v →
     (2 < length (slog.Value_Group (errorsgo.LogValue_obj o)))%nat
     ∧ (slog.Value_Kind v = slog.KindGroup →
          slog.Value_Group (errorsgo.LogValue_obj o) = base_fields o ++ slog.Value_Group v)
     ∧ (slog.Value_Kind v ≠ slog.KindGroup →
          slog.Value_Group (errorsgo.LogValue_obj o) = base_fields o ++ [("details", v)]))
  ∧ ((∀ v, ¬ exposes o v) →
       slog.Value_Group (errorsgo.LogValue_obj o) = base_fields o).
Proof.
  assert (∀ v, errors.As_LogValuer (origErr o) = Some v →
            slog.Value_Kind v ≠ slog.KindGroup →
            slog.Value_Group (errorsgo.LogValue_obj o) = base_fields o ++ [("details", v)])
    as Hdetails.
  { intros v Hv Hk. rewrite LogValue_obj_unfold, Hv.
    destruct v; try reflexivity. contradiction Hk. reflexivity. }
  assert (∀ v, errors.As_LogValuer (origErr o) = Some v → well_formed v →
            slog.Value_Kind v = slog.KindGroup →
            slog.Value_Group (errorsgo.LogValue_obj o) = base_fields o ++ slog.Value_Group v)
    as Hgroup.
  { intros v Hv Hwf Hk. rewrite LogValue_obj_unfold, Hv, Hk.
    destruct v as [| | | | |ms|]; try discriminate.
    cbn [slog.Value_Group]. unfold slog.GroupValue.
    rewrite filter_app, (filter_all _ ms Hwf). reflexivity. }
  split.
  - intros v [Hv Hne] Hwf. split; [|split; [apply Hgroup | apply Hdetails]; assumption].
    destruct v as [| | | | |ms|];
      try (rewrite (Hdetails _ Hv) by discriminate; cbn; lia).
    rewrite (Hgroup _ Hv Hwf eq_refl). cbn [slog.Value_Group].
    destruct ms; [discriminate|]. cbn. lia.
  - intros Hno. destruct (errors.As_LogValuer (origErr o)) as [v|] eqn:Hv.
    + destruct (slog.isEmptyGroup v) eqn:He.
      * destruct v as [| | | | |ms|]; try discriminate.
        destruct ms; [|discriminate].
        rewrite (Hgroup _ eq_refl (Forall_nil_2 _) eq_refl). reflexivity.
      * exfalso. apply (Hno v). split; [exact Hv | assumption].
    + rewrite LogValue_obj_unfold, Hv. reflexivity.
Qed.

Lemma LogValue_fields_witness :
  let o := {| errorsgo.Error :=
                errors.NewError connect.CodeUnknown
                  (Some (detailedError "password" "too short")) |} in
  (2 < length (slog.Value_Group (errorsgo.LogValue_obj o)))%nat
  ∧ slog.Value_Group (errorsgo.LogValue_obj o)
    = [ ("code", slog.VString "unknown");
        ("message", slog.VString "validation error");
        ("field", slog.VString "password");
        ("reason", slog.VString "too short") ].
Proof.
  cbv zeta.
  destruct (LogValue_fields
              {| errorsgo.Error :=
                   errors.NewError connect.CodeUnknown
                     (Some (detailedError "password" "too short")) |})
    as [Hexp _].
  destruct (Hexp (slog.GroupValue [slog.String_ "field" "password";
                                   slog.String_ "reason" "too short"]))
    as (Hlt & Hg & _).
  - split; reflexivity.
  - repeat constructor.
  - split; [exact Hlt | apply Hg; reflexivity].
Defined.

(** ** The stream wrapper *)

Lemma wrap_in_range (z : Z) : in_range z → goint.wrap z = z.
Proof.
  unfold in_range, goint.wrap, goint.min_int, goint.max_int. intros H.
  rewrite Z.mod_small by lia. lia.
Qed.

Lemma wrap_add (a b : Z) : goint.wrap (goint.wrap a + b) = goint.wrap (a + b).
Proof.
  unfold goint.wrap.
  replace ((a + 2 ^ 63) mod 2 ^ 64 - 2 ^ 63 + b + 2 ^ 63)
    with ((a + 2 ^ 63) mod 2 ^ 64 + b) by lia.
  rewrite Zplus_mod_idemp_l. f_equal. f_equal. lia.
Qed.

Lemma wrap_is_in_range (z : Z) : in_range (goint.wrap z).
Proof.
  unfold in_range, goint.wrap, goint.min_int, goint.max_int.
  pose proof (Z.mod_pos_bound (z + 2 ^ 63) (2 ^ 64) ltac:(lia)). lia.
Qed.

Section stream_props.
Context {Ctx D : Type} `{!stream.StreamingHandlerConn D}.
Implicit Types (c : stream.loggedStreamConn Ctx D) (h : stream.StreamingHandler).

(** A failed send: the counter, the log and the error are untouched. *)
Lemma Send_failure c calls msg err d :
  stream.conn_Send (stream.embedded c) msg = (Some err, d) →
  stream.Send (c, calls) msg = (Some err, (stream.set_embedded c d, calls)).
Proof. intros Hs. unfold stream.Send. rewrite Hs. reflexivity. Qed.

Lemma Receive_failure c calls msg msg' err d :
  stream.conn_Receive (stream.embedded c) msg = (msg', Some err, d) →
  stream.Receive (c, calls) msg = (msg', Some err, (stream.set_embedded c d, calls)).
Proof. intros Hs. unfold stream.Receive. rewrite Hs. reflexivity. Qed.

(** A successful send: the counter goes up by one and at most one debug
    record is written. *)
Lemma Send_success c calls msg d :
  stream.conn_Send (stream.embedded c) msg = (None, d) →
  ∃ c' extra,
    stream.Send (c, calls) msg = (None, (c', calls ++ extra))
    ∧ stream.embedded c' = d
    ∧ stream.logger c' = stream.logger c
    ∧ stream.debugEnabled c' = stream.debugEnabled c
    ∧ stream.sentCount c' = goint.wrap (stream.sentCount c + 1)
    ∧ stream.receivedCount c' = stream.receivedCount c
    ∧ Forall (λ r, slog.level r = slog.LevelDebug) extra
    ∧ (stream.debugEnabled c = false → extra = []).
Proof.
  intros Hs. unfold stream.Send. rewrite Hs. cbn.
  destruct (stream.debugEnabled c) eqn:E.
  - eexists _, [_]. split; [reflexivity|]. cbn. rewrite E.
    repeat split; try reflexivity.
    + repeat constructor.
    + discriminate.
  - eexists _, []. rewrite app_nil_r. split; [reflexivity|]. cbn. rewrite E.
    repeat split; try reflexivity. constructor.
Qed.

Lemma Receive_success c calls msg msg' d :
  stream.conn_Receive (stream.embedded c) msg = (msg', None, d) →
  ∃ c' extra,
    stream.Receive (c, calls) msg = (msg', None, (c', calls ++ extra))
    ∧ stream.embedded c' = d
    ∧ stream.logger c' = stream.logger c
    ∧ stream.debugEnabled c' = stream.debugEnabled c
    ∧ stream.sentCount c' = stream.sentCount c
    ∧ stream.receivedCount c' = goint.wrap (stream.receivedCount c + 1)
    ∧ Forall (λ r, slog.level r = slog.LevelDebug) extra
    ∧ (stream.debugEnabled c = false → extra = []).
Proof.
  intros Hs. unfold stream.Receive. rewrite Hs. cbn.
  destruct (stream.debugEnabled c) eqn:E.
  - eexists _, [_]. split; [reflexivity|]. cbn. rewrite E.
    repeat split; try reflexivity.
    + repeat constructor.
    + discriminate.
  - eexists _, []. rewrite app_nil_r. split; [reflexivity|]. cbn. rewrite E.
    repeat split; try reflexivity. constructor.
Qed.
End stream_props.

Section stream_run.
Context {Ctx D : Type} `{!stream.StreamingHandlerConn D}.
Implicit Types (c : stream.loggedStreamConn Ctx D) (h : stream.StreamingHandler).

(** A handler run on the wrapper takes the same steps as on the
    underlying connection: same result, same final connection; each
    counter has advanced by the number of underlying successes, and only
    debug records were written. *)
Lemma run_wrapped h : ∀ c calls err d n m,
  stream.run h (stream.embedded c) = (err, d) →
  tally h (stream.embedded c) = (n, m) →
  ∃ c' extra,
    stream.run h (c, calls) = (err, (c', calls ++ extra))
    ∧ stream.embedded c' = d
    ∧ stream.logger c' = stream.logger c
    ∧ stream.debugEnabled c' = stream.debugEnabled c
    ∧ goint.wrap (stream.sentCount c') = goint.wrap (stream.sentCount c + Z.of_nat n)
    ∧ goint.wrap (stream.receivedCount c')
      = goint.wrap (stream.receivedCount c + Z.of_nat m)
    ∧ (in_range (stream.sentCount c) → in_range (stream.sentCount c'))
    ∧ (in_range (stream.receivedCount c) → in_range (stream.receivedCount c'))
    ∧ Forall (λ r, slog.level r = slog.LevelDebug) extra
    ∧ (stream.debugEnabled c = false → extra = []).
Proof.
  induction h as [e|msg k IH|msg k IH]; intros c calls err d n m Hrun Htally.
  - cbn in Hrun, Htally. injection Hrun as <- <-. injection Htally as <- <-.
    exists c, []. rewrite app_nil_r. cbn [Z.of_nat]. rewrite !Z.add_0_r.
    split; [reflexivity|]. split; [reflexivity|]. split; [reflexivity|].
    split; [reflexivity|]. split; [reflexivity|]. split; [reflexivity|].
    split; [auto|]. split; [auto|]. split; [constructor | reflexivity].
  - cbn [stream.run tally] in Hrun, Htally.
    destruct (stream.conn_Send (stream.embedded c) msg) as [e d1] eqn:Es.
    destruct (tally (k e) d1) as [n1 m1] eqn:Et. injection Htally as <- <-.
    destruct e as [e|].
    + destruct (IH (Some e) (stream.set_embedded c d1) calls err d n1 m1 Hrun Et)
        as (c' & extra & Hr & Hrest).
      exists c', extra. split; [|exact Hrest].
      cbn [stream.run stream.conn_Send stream.Wrapped_conn].
      rewrite (Send_failure c calls msg e d1 Es). exact Hr.
    + destruct (Send_success c calls msg d1 Es)
        as (c1 & x1 & Hs & He1 & Hl1 & Hd1 & Hsc1 & Hrc1 & Hx1 & Hq1).
      rewrite <- He1 in Hrun, Et.
      destruct (IH None c1 (calls ++ x1) err d n1 m1 Hrun Et)
        as (c' & x2 & Hr & He & Hl & Hd & Hsc & Hrc & Hsr & Hrr & Hx & Hq).
      exists c', (x1 ++ x2). rewrite app_assoc.
      split.
      { cbn [stream.run stream.conn_Send stream.Wrapped_conn]. rewrite Hs. exact Hr. }
      split; [exact He|]. split; [congruence|]. split; [congruence|].
      split.
      { rewrite Hsc, Hsc1, wrap_add. f_equal. lia. }
      split; [rewrite Hrc, Hrc1; reflexivity|].
      split; [intros _; apply Hsr; rewrite Hsc1; apply wrap_is_in_range|].
      split; [intros Hi; apply Hrr; rewrite Hrc1; exact Hi|].
      split; [apply Forall_app; split; assumption|].
      intros Hf. rewrite (Hq1 Hf), Hq by congruence. reflexivity.
  - cbn [stream.run tally] in Hrun, Htally.
    destruct (stream.conn_Receive (stream.embedded c) msg) as [[msg' e] d1] eqn:Es.
    destruct (tally (k msg' e) d1) as [n1 m1] eqn:Et. injection Htally as <- <-.
    destruct e as [e|].
    + destruct (IH msg' (Some e) (stream.set_embedded c d1) calls err d n1 m1 Hrun Et)
        as (c' & extra & Hr & Hrest).
      exists c', extra. split; [|exact Hrest].
      cbn [stream.run stream.conn_Receive stream.Wrapped_conn].
      rewrite (Receive_failure c calls msg msg' e d1 Es). exact Hr.
    + destruct (Receive_success c calls msg msg' d1 Es)
        as (c1 & x1 & Hs & He1 & Hl1 & Hd1 & Hsc1 & Hrc1 & Hx1 & Hq1).
      rewrite <- He1 in Hrun, Et.
      destruct (IH msg' None c1 (calls ++ x1) err d n1 m1 Hrun Et)
        as (c' & x2 & Hr & He & Hl & Hd & Hsc & Hrc & Hsr & Hrr & Hx & Hq).
      exists c', (x1 ++ x2). rewrite app_assoc.
      split.
      { cbn [stream.run stream.conn_Receive stream.Wrapped_conn]. rewrite Hs. exact Hr. }
      split; [exact He|]. split; [congruence|]. split; [congruence|].
      split; [rewrite Hsc, Hsc1; reflexivity|].
      split.
      { rewrite Hrc, Hrc1, wrap_add. f_equal. lia. }
      split; [intros Hi; apply Hsr; rewrite Hsc1; exact Hi|].
      split; [intros _; apply Hrr; rewrite Hrc1; apply wrap_is_in_range|].
      split; [apply Forall_app; split; assumption|].
      intros Hf. rewrite (Hq1 Hf), Hq by congruence. reflexivity.
Qed.

(** The same for the wrapper as [newLoggedStreamConn] makes it. *)
Lemma run_fresh_wrapper h (x : Ctx) (conn : D) (l : slog.Logger) calls err d n m :
  stream.run h conn = (err, d) →
  tally h conn = (n, m) →
  ∃ c' extra,
    stream.run h (stream.newLoggedStreamConn x conn l, calls)
      = (err, (c', calls ++ extra))
    ∧ stream.embedded c' = d
    ∧ stream.sentCount c' = goint.wrap (Z.of_nat n)
    ∧ stream.receivedCount c' = goint.wrap (Z.of_nat m)
    ∧ Forall (λ r, slog.level r = slog.LevelDebug) extra
    ∧ (slog.Enabled l slog.LevelDebug = false → extra = []).
Proof.
  intros Hrun Htally.
  destruct (run_wrapped h (stream.newLoggedStreamConn x conn l) calls err d n m
              Hrun Htally)
    as (c' & extra & Hr & He & _ & _ & Hsc & Hrc & Hsr & Hrr & Hx & Hq).
  exists c', extra. cbn in Hsc, Hrc, Hsr, Hrr, Hq.
  assert (in_range 0) as H0 by (unfold in_range, goint.min_int, goint.max_int; lia).
  rewrite wrap_in_range in Hsc by auto. rewrite wrap_in_range in Hrc by auto.
  repeat split; assumption.
Qed.
End stream_run.

(** C3: when a handler has run on a freshly wrapped connection, the sent
    counter reads the number [N] of sends that succeeded on the underlying
    connection and the received counter the number [M] of receives that
    succeeded (both as Go [int]s, which hold them as long as they do not
    exceed the largest [int]); the handler got the results the underlying
    connection gave.  A send or a receive that fails underneath returns
    that error and changes neither counter nor the log. *)
Theorem stream_counters {Ctx D : Type} `{!stream.StreamingHandlerConn D}
    (h : stream.StreamingHandler) (x : Ctx) (conn : D) (l : slog.Logger)
    (calls : list slog.LogCall) :
  Z.of_nat (tally h conn).1 ≤ goint.max_int →
  Z.of_nat (tally h conn).2 ≤ goint.max_int →
  (∃ c' extra,
     stream.run h (stream.newLoggedStreamConn x conn l, calls)
       = ((stream.run h conn).1, (c', calls ++ extra))
     ∧ stream.embedded c' = (stream.run h conn).2
     ∧ stream.sentCount c' = Z.of_nat (tally h conn).1
     ∧ stream.receivedCount c' = Z.of_nat (tally h conn).2)
  ∧ (∀ (c : stream.loggedStreamConn Ctx D) cs msg err d,
       stream.conn_Send (stream.embedded c) msg = (Some err, d) →
       ∃ c', stream.Send (c, cs) msg = (Some err, (c', cs))
             ∧ stream.sentCount c' = stream.sentCount c
             ∧ stream.receivedCount c' = stream.receivedCount c)
  ∧ (∀ (c : stream.loggedStreamConn Ctx D) cs msg msg' err d,
       stream.conn_Receive (stream.embedded c) msg = (msg', Some err, d) →
       ∃ c', stream.Receive (c, cs) msg = (msg', Some err, (c', cs))
             ∧ stream.sentCount c' = stream.sentCount c
             ∧ stream.receivedCount c' = stream.receivedCount c)
  ∧ (∀ (c : stream.loggedStreamConn Ctx D) cs msg d,
       stream.conn_Send (stream.embedded c) msg = (None, d) →
       ∃ c' cs', stream.Send (c, cs) msg = (None, (c', cs'))
             ∧ stream.sentCount c' = goint.incr (stream.sentCount c)
             ∧ stream.receivedCount c' = stream.receivedCount c)
  ∧ (∀ (c : stream.loggedStreamConn Ctx D) cs msg msg' d,
       stream.conn_Receive (stream.embedded c) msg = (msg', None, d) →
       ∃ c' cs', stream.Receive (c, cs) msg = (msg', None, (c', cs'))
             ∧ stream.sentCount c' = stream.sentCount c
             ∧ stream.receivedCount c' = goint.incr (stream.receivedCount c)).
Proof.
  intros HN HM. split.
  { destruct (stream.run h conn) as [err d] eqn:Hrun.
    destruct (tally h conn) as [n m] eqn:Ht. cbn [fst snd] in *.
    destruct (run_fresh_wrapper h x conn l calls err d n m Hrun Ht)
      as (c' & extra & Hr & He & Hs & Hrc & _).
    exists c', extra. split; [exact Hr|]. split; [exact He|].
    rewrite Hs, Hrc.
    split; apply wrap_in_range; unfold in_range, goint.min_int; lia. }
  split.
  { intros c cs msg err d Hs. eexists. split; [apply Send_failure, Hs|].
    split; reflexivity. }
  split.
  { intros c cs msg msg' err d Hs. eexists. split; [apply Receive_failure, Hs|].
    split; reflexivity. }
  split.
  { intros c cs msg d Hs.
    destruct (Send_success c cs msg d Hs) as (c' & extra & H1 & _ & _ & _ & H2 & H3 & _).
    exists c', (cs ++ extra). auto. }
  intros c cs msg msg' d Hs.
  destruct (Receive_success c cs msg msg' d Hs)
    as (c' & extra & H1 & _ & _ & _ & H2 & H3 & _).
  exists c', (cs ++ extra). auto.
Qed.

Lemma stream_counters_witness :
  ∃ (c' : stream.loggedStreamConn unit nat) extra,
    stream.run sample_stream_handler (stream.newLoggedStreamConn tt 5%nat quiet_logger, [])
      = (Some (errors.Sentinel errors.EOF), (c', [] ++ extra))
    ∧ stream.embedded c' = 0%nat
    ∧ stream.sentCount c' = 3
    ∧ stream.receivedCount c' = 2.
Proof.
  refine (proj1 (stream_counters sample_stream_handler tt 5%nat quiet_logger [] _ _));
    vm_compute; discriminate.
Defined.

(** ** The request logger *)

Lemma len_append (s t : string) : strings.len (s +:+ t) = strings.len s + strings.len t.
Proof.
  unfold strings.len. induction s as [|c s IH]; [reflexivity|].
  rewrite append_cons. cbn [String.length]. lia.
Qed.

Lemma take_append (s t : string) : strings.take (String.length s) (s +:+ t) = s.
Proof.
  induction s as [|c s IH]; [destruct t; reflexivity|].
  rewrite append_cons. cbn [String.length strings.take]. rewrite IH. reflexivity.
Qed.

Lemma substring_cons (sub s : string) (c : ascii) :
  substring sub s → substring sub (String c s).
Proof. intros (pre & post & ->). exists (String c pre), post. reflexivity. Qed.

(** The first separator of [service/method] is the one after [service]
    when [service] has none. *)
Lemma Index_separator (service method : string) :
  ¬ substring "/" service →
  strings.Index (service +:+ "/" +:+ method) "/" = strings.len service.
Proof.
  induction service as [|a s IH]; intros Hno.
  { change ("" +:+ "/" +:+ method) with (String "/" method). rewrite Index_cons.
    replace (strings.HasPrefix (String "/" method) "/") with true; [reflexivity|].
    symmetry. apply HasPrefix_spec. exists method. reflexivity. }
  rewrite append_cons, Index_cons.
  destruct (strings.HasPrefix (String a (s +:+ "/" +:+ method)) "/") eqn:E.
  - exfalso. apply Hno. cbn in E. destruct (Ascii.eqb a "/") eqn:Ea; [|discriminate].
    apply Ascii.eqb_eq in Ea as ->. exists "", s. reflexivity.
  - rewrite IH by (intros Hs; apply Hno, substring_cons, Hs).
    unfold strings.len. destruct (Z.ltb_spec (Z.of_nat (String.length s)) 0); [lia|].
    cbn [String.length]. lia.
Qed.

Lemma HasPrefix_len (s p : string) :
  strings.HasPrefix s p = true → strings.len p ≤ strings.len s.
Proof.
  intros Hp. apply HasPrefix_spec in Hp as [post ->]. rewrite len_append.
  unfold strings.len. lia.
Qed.

Lemma Index_room (s sub : string) :
  0 ≤ strings.Index s sub → strings.Index s sub + strings.len sub ≤ strings.len s.
Proof.
  induction s as [|c s IH].
  - rewrite Index_nil. destruct (strings.HasPrefix "" sub) eqn:E; [|lia].
    intros _. apply HasPrefix_len in E. lia.
  - rewrite Index_cons. destruct (strings.HasPrefix (String c s) sub) eqn:E.
    + intros _. apply HasPrefix_len in E. lia.
    + destruct (Z.ltb_spec (strings.Index s sub) 0); [lia|]. intros _.
      unfold strings.len in *. cbn [String.length]. lia.
Qed.

(** On a splittable identifier the request logger is built. *)
Lemma initRequestLogger_ok {Ctx} (i : interceptor.loggingInterceptor Ctx) (c : Ctx)
    (spec : connect.Spec) (peer : connect.Peer) :
  splittable (connect.Procedure spec) →
  ∃ service method,
    interceptor.initRequestLogger i c spec peer
    = Ok (request_logger i c service method peer).
Proof.
  unfold splittable. intros Hs. apply Index_found in Hs.
  pose proof (Index_room _ _ Hs) as Hr. change (strings.len "/") with 1 in Hr.
  unfold interceptor.initRequestLogger, strings.slice_to, strings.slice_from.
  set (procedure := strings.TrimPrefix (connect.Procedure spec) "/") in *.
  set (idx := strings.Index procedure "/") in *.
  replace ((0 <=? idx) && (idx <=? strings.len procedure))%bool with true
    by (symmetry; apply andb_true_intro; split; apply Z.leb_le; lia).
  replace ((0 <=? idx + 1) && (idx + 1 <=? strings.len procedure))%bool with true
    by (symmetry; apply andb_true_intro; split; apply Z.leb_le; lia).
  eexists _, _. reflexivity.
Qed.

Lemma TrimPrefix_separator (rest : string) :
  strings.TrimPrefix (String "/" rest) "/" = rest.
Proof.
  unfold strings.TrimPrefix.
  replace (strings.HasPrefix (String "/" rest) "/") with true; [reflexivity|].
  symmetry. apply HasPrefix_spec. exists rest. reflexivity.
Qed.

Lemma drop_past_separator (s t : string) (c : ascii) :
  strings.drop (S (String.length s)) (s +:+ String c t) = t.
Proof.
  induction s as [|a s IH]; [reflexivity|].
  rewrite append_cons. cbn [String.length strings.drop]. exact IH.
Qed.

(** C9: when the identifier, with one leading separator stripped, holds no
    separator, [initRequestLogger] panics on its first slice expression
    with the bound -1 out of range; on an identifier [/service/method],
    where [service] holds no separator, it returns the logger with the
    attributes of [service] and of [method], the text after the first
    separator. *)
Theorem initRequestLogger_split {Ctx} (i : interceptor.loggingInterceptor Ctx) (c : Ctx)
    (peer : connect.Peer) :
  (∀ spec,
     ¬ substring "/" (strings.TrimPrefix (connect.Procedure spec) "/") →
     interceptor.initRequestLogger i c spec peer
     = Panic (SliceBoundsOutOfRange (-1)
                (strings.len (strings.TrimPrefix (connect.Procedure spec) "/"))))
  ∧ (∀ service method,
       ¬ substring "/" service →
       interceptor.initRequestLogger i c
         {| connect.Procedure := "/" +:+ service +:+ "/" +:+ method |} peer
       = Ok (request_logger i c service method peer)).
Proof.
  split.
  - intros spec Hno. apply Index_absent in Hno.
    unfold interceptor.initRequestLogger, strings.slice_to. rewrite Hno. reflexivity.
  - intros service method Hno.
    unfold interceptor.initRequestLogger. cbn [connect.Procedure].
    change ("/" +:+ service +:+ "/" +:+ method)
      with (String "/" (service +:+ "/" +:+ method)).
    rewrite TrimPrefix_separator, Index_separator by exact Hno.
    unfold strings.slice_to, strings.slice_from.
    rewrite !len_append. change (strings.len "/") with 1.
    assert (0 ≤ strings.len service) as H0 by (unfold strings.len; lia).
    assert (0 ≤ strings.len method) as H1 by (unfold strings.len; lia).
    replace ((0 <=? strings.len service)
             && (strings.len service <=? strings.len service + (1 + strings.len method)))%bool
      with true by (symmetry; apply andb_true_intro; split; apply Z.leb_le; lia).
    replace ((0 <=? strings.len service + 1)
             && (strings.len service + 1 <=? strings.len service + (1 + strings.len method)))%bool
      with true by (symmetry; apply andb_true_intro; split; apply Z.leb_le; lia).
    unfold strings.len. rewrite Nat2Z.id.
    replace (Z.to_nat (Z.of_nat (String.length service) + 1))
      with (S (String.length service)) by lia.
    rewrite take_append.
    change ("/" +:+ method) with (String "/" method).
    rewrite drop_past_separator. reflexivity.
Qed.

Lemma initRequestLogger_split_witness :
  interceptor.initRequestLogger sample_interceptor tt
    {| connect.Procedure := "ping" |} sample_peer
  = Panic (SliceBoundsOutOfRange (-1) 4)
  ∧ interceptor.initRequestLogger sample_interceptor tt
      {| connect.Procedure := "/acme.v1.Ping/Echo" |} sample_peer
    = Ok (request_logger sample_interceptor tt "acme.v1.Ping" "Echo" sample_peer).
Proof.
  destruct (initRequestLogger_split sample_interceptor tt sample_peer) as [Hp Hs].
  split.
  - apply (Hp {| connect.Procedure := "ping" |}).
    apply Index_absent. reflexivity.
  - apply (Hs "acme.v1.Ping" "Echo"). apply Index_absent. reflexivity.
Defined.

(** ** The interceptor *)

(** Redacting a header keeps every map that existed before. *)
Lemma redactHeadersMap_keeps (σ : list headers.Header) (h : nat) (names : list string) :
  ∀ a M, σ !! a = Some M → (headers.redactHeadersMap σ h names).2 !! a = Some M.
Proof.
  intros a M Ha. unfold headers.redactHeadersMap. cbn [snd].
  rewrite redactHeadersMap_fold. rewrite lookup_app_l; [exact Ha|].
  eapply lookup_lt_Some, Ha.
Qed.

Lemma debug_step_refl (w : interceptor.world) : debug_step w w.
Proof.
  split; [auto|]. split; [reflexivity|]. exists []. rewrite app_nil_r.
  split; [reflexivity | constructor].
Qed.


Lemma debug_headers_step {Ctx} (i : interceptor.loggingInterceptor Ctx)
    (logger : slog.Logger) (m : string) (header : nat) (before : list slog.Attr)
    (w : interceptor.world) :
  debug_step w (interceptor.debug_headers i logger m header before w).
Proof.
  unfold interceptor.debug_headers.
  pose proof (redactHeadersMap_keeps (interceptor.maps w) header
                (interceptor.redactHeaders i)) as Hk.
  destruct (headers.redactHeadersMap _ _ _) as [hdrs σ]. cbn [snd] in Hk.
  split; [exact Hk|]. split; [reflexivity|].
  eexists [_]. split; [reflexivity|]. repeat constructor.
Qed.

Lemma debug_if_step {Ctx} (i : interceptor.loggingInterceptor Ctx)
    (logger : slog.Logger) (m : string) (header : nat) (before : list slog.Attr)
    (w : interceptor.world) (b : bool) :
  debug_step w (if b then interceptor.debug_headers i logger m header before w else w).
Proof. destruct b; [apply debug_headers_step | apply debug_step_refl]. Qed.

(** The failure branch: one record, at warn level when the classified code
    is below [CodeInternal] and at error level otherwise, carrying the
    pointer to the classified error. *)
Lemma log_failure_spec (logger : slog.Logger) (m : string) (logAttrs : list slog.Attr)
    (e : errors.error) (w : interceptor.world) :
  heap_ok (interceptor.errs w) →
  ∃ p ρ o,
    errorsgo.newLoggableError (Some e) (interceptor.errs w) = (Some p, ρ)
    ∧ ρ !! p = Some o
    ∧ interceptor.log_failure logger m logAttrs e w
      = Ok {| interceptor.maps := interceptor.maps w;
              interceptor.errs := ρ;
              interceptor.calls :=
                interceptor.calls w ++
                  [ {| slog.level :=
                         if (errors.code (errorsgo.Error o) <? connect.CodeInternal)%N
                         then slog.LevelWarn else slog.LevelError;
                       slog.msg := m;
                       slog.attrs :=
                         slog.bound logger ++ logAttrs ++
                           [("error",
                             slog.VLogValuer (slog.LoggableErrorPtr (Some p)))] |} ] |}.
Proof.
  intros Hok. destruct (newLoggableError_valid e _ Hok) as (p & ρ & o & Hn & Hp).
  exists p, ρ, o. split; [exact Hn|]. split; [exact Hp|].
  unfold interceptor.log_failure. rewrite Hn. cbn [interceptor.errs].
  unfold errorsgo.Code_at. rewrite Hp. cbn [mbind result_bind].
  unfold errors.Code.
  destruct (errors.code (errorsgo.Error o) <? connect.CodeInternal)%N; reflexivity.
Qed.

Section unary.
Context {Ctx : Type}.
Implicit Types (i : interceptor.loggingInterceptor Ctx)
  (next : interceptor.UnaryFunc Ctx) (w : interceptor.world).

(** A unary call whose handler fails. *)
Lemma WrapUnary_failure i next start finish (c : Ctx) req w res e :
  splittable (connect.Procedure (interceptor.req_Spec req)) →
  heap_ok (interceptor.errs w) →
  next c req = (res, Some e) →
  ∃ service method w1 p ρ o,
    debug_step w w1
    ∧ errorsgo.newLoggableError (Some e) (interceptor.errs w) = (Some p, ρ)
    ∧ ρ !! p = Some o
    ∧ interceptor.WrapUnary i next start finish c req w
      = Ok (res, Some e,
            {| interceptor.maps := interceptor.maps w1;
               interceptor.errs := ρ;
               interceptor.calls :=
                 interceptor.calls w1 ++
                   [ {| slog.level :=
                          if (errors.code (errorsgo.Error o) <? connect.CodeInternal)%N
                          then slog.LevelWarn else slog.LevelError;
                        slog.msg := "request failed";
                        slog.attrs :=
                          slog.bound (request_logger i c service method
                                        (interceptor.req_Peer req))
                          ++ unary_attrs start finish req
                          ++ [("error",
                               slog.VLogValuer (slog.LoggableErrorPtr (Some p)))] |} ] |}).
Proof.
  intros Hs Hok Hn.
  destruct (initRequestLogger_ok i c _ (interceptor.req_Peer req) Hs)
    as (service & method & Hl).
  unfold interceptor.WrapUnary. rewrite Hl. cbn [mbind result_bind]. rewrite Hn.
  set (logger := request_logger i c service method (interceptor.req_Peer req)).
  set (w1 := if slog.Enabled logger slog.LevelDebug then _ else w).
  assert (debug_step w w1) as Hd by apply debug_if_step.
  assert (heap_ok (interceptor.errs w1)) as Hok1
    by (destruct Hd as (_ & -> & _); exact Hok).
  set (logAttrs := if 0 <=? _ then _ else _).
  destruct (log_failure_spec logger "request failed" logAttrs e w1 Hok1)
    as (p & ρ & o & Hc & Hp & Hf).
  exists service, method, w1, p, ρ, o.
  split; [exact Hd|]. split; [destruct Hd as (_ & <- & _); exact Hc|].
  split; [exact Hp|]. rewrite Hf. cbn [mbind result_bind mret result_ret].
  subst logAttrs. unfold unary_attrs.
  destruct (0 <=? size.calculateSize (interceptor.req_Any req)); reflexivity.
Qed.

End unary.

Section streaming.
Context {Ctx D : Type} `{!stream.StreamingHandlerConn D}.
Implicit Types (i : interceptor.loggingInterceptor Ctx) (w : interceptor.world).

End streaming.

(** The code of the object the classifier returns. *)
Lemma classified_code (e : errors.error) (ρ ρ' : errorsgo.ErrHeap) (p : nat)
    (o : errorsgo.loggableError) :
  errorsgo.newLoggableError (Some e) ρ = (Some p, ρ') →
  ρ' !! p = Some o →
  (∀ ce, errors.As_connect e = Some ce → errorsgo.Error o = ce)
  ∧ (unrecognized e → errors.code (errorsgo.Error o) = connect.CodeUnknown).
Proof.
  intros Hn Hp. split.
  - intros ce He. unfold errorsgo.newLoggableError, errorsgo.alloc in Hn.
    rewrite He in Hn. injection Hn as <- <-. rewrite alloc_lookup in Hp.
    injection Hp as <-. reflexivity.
  - intros (H1 & H2 & H3 & H4). unfold errorsgo.newLoggableError, errorsgo.alloc in Hn.
    rewrite H1, H2, H3, H4 in Hn. cbn [orb] in Hn. injection Hn as <- <-.
    rewrite alloc_lookup in Hp. injection Hp as <-. reflexivity.
Qed.

(** C4, as the specification states it, fails: a handler that returns a
    plain error, which the classifier does not recognise, gets a summary at
    warn level and none at error level, since the code unknown (2) is below
    the code internal (13). *)
Lemma unary_plain_error_logged_at_warn :
  unrecognized (errors.errorString "boom")
  ∧ ∃ w',
      interceptor.WrapUnary sample_interceptor failing_plain 0 5000000 tt
        sample_request sample_world
      = Ok (None, Some (errors.errorString "boom"), w')
      ∧ map slog.level (interceptor.calls w') = [slog.LevelWarn]
      ∧ map slog.msg (interceptor.calls w') = ["request failed"]
      ∧ filter (λ r, slog.level r = slog.LevelError) (interceptor.calls w') = [].
Proof.
  split; [repeat split|].
  eexists. split; [vm_compute; reflexivity|]. repeat split.
Qed.

(** C4, amended: a unary call whose handler returns an error gets exactly
    one summary, "request failed", after debug records only.  The summary
    is at warn level exactly when the classified code is below the code
    internal and at error level otherwise.  So a connect error with code
    internal, or any code from internal up, is logged at error level, and
    an error the classifier does not recognise, classified unknown, at warn
    level. *)
Theorem WrapUnary_failure_level {Ctx} (i : interceptor.loggingInterceptor Ctx)
    (next : interceptor.UnaryFunc Ctx) (start finish : Z) (c : Ctx)
    (req : interceptor.AnyRequest) (w : interceptor.world)
    (res : option interceptor.AnyResponse) (e : errors.error) :
  splittable (connect.Procedure (interceptor.req_Spec req)) →
  heap_ok (interceptor.errs w) →
  next c req = (res, Some e) →
  ∃ w' pre summary p o,
    interceptor.WrapUnary i next start finish c req w = Ok (res, Some e, w')
    ∧ interceptor.calls w' = interceptor.calls w ++ pre ++ [summary]
    ∧ Forall (λ r, slog.level r = slog.LevelDebug) pre
    ∧ slog.msg summary = "request failed"
    ∧ (errorsgo.newLoggableError (Some e) (interceptor.errs w)).1 = Some p
    ∧ interceptor.errs w' !! p = Some o
    ∧ (slog.level summary = slog.LevelWarn
       ↔ (errors.code (errorsgo.Error o) < connect.CodeInternal)%N)
    ∧ (slog.level summary = slog.LevelError
       ↔ (connect.CodeInternal ≤ errors.code (errorsgo.Error o))%N)
    ∧ (∀ ce, errors.As_connect e = Some ce →
         (connect.CodeInternal ≤ errors.code ce)%N →
         filter (λ r, slog.level r = slog.LevelError) (pre ++ [summary]) = [summary])
    ∧ (∀ ce, errors.As_connect e = Some ce →
         (errors.code ce < connect.CodeInternal)%N →
         slog.level summary = slog.LevelWarn)
    ∧ (unrecognized e → slog.level summary = slog.LevelWarn).
Proof.
  intros Hs Hok Hn.
  destruct (WrapUnary_failure i next start finish c req w res e Hs Hok Hn)
    as (service & method & w1 & p & ρ & o & Hd & Hc & Hp & HW).
  destruct Hd as (_ & _ & pre & Hcalls & Hpre).
  destruct (classified_code e _ _ _ _ Hc Hp) as [Hconn Hunk].
  eexists _, pre, _, p, o. split; [exact HW|]. cbn [interceptor.calls interceptor.errs].
  split; [rewrite Hcalls, <- app_assoc; reflexivity|].
  split; [exact Hpre|]. split; [reflexivity|].
  split; [rewrite Hc; reflexivity|]. split; [exact Hp|].
  cbn [slog.level].
  destruct (N.ltb_spec (errors.code (errorsgo.Error o)) connect.CodeInternal) as [Hlt|Hge].
  - split; [split; [intros _; exact Hlt | reflexivity]|].
    split; [split; [discriminate | intros Hge; lia]|].
    split; [intros ce He Hce; rewrite (Hconn ce He) in Hlt; lia|].
    split; reflexivity.
  - split; [split; [discriminate | intros Hlt; lia]|].
    split; [split; [intros _; exact Hge | reflexivity]|].
    split.
    { intros ce He Hce. rewrite filter_app.
      replace (filter _ pre) with (@nil slog.LogCall); [reflexivity|].
      symmetry. clear -Hpre. induction Hpre as [|r pre Hr _ IH]; [reflexivity|].
      rewrite filter_cons_False; [exact IH|]. rewrite Hr. discriminate. }
    split.
    + intros ce He Hce. rewrite (Hconn ce He) in Hge. lia.
    + intros Hu. rewrite (Hunk Hu) in Hge. unfold connect.CodeUnknown, connect.CodeInternal in Hge.
      lia.
Qed.

Lemma WrapUnary_failure_level_witness :
  ∃ w' pre summary p o,
    interceptor.WrapUnary sample_interceptor failing_internal 0 5000000 tt
      sample_request sample_world
    = Ok (None,
          Some (errors.ConnectError connect.CodeInternal
                  (Some (errors.errorString "db down"))), w')
    ∧ interceptor.calls w' = interceptor.calls sample_world ++ pre ++ [summary]
    ∧ interceptor.errs w' !! p = Some o
    ∧ filter (λ r, slog.level r = slog.LevelError) (pre ++ [summary]) = [summary].
Proof.
  destruct (WrapUnary_failure_level sample_interceptor failing_internal 0 5000000 tt
              sample_request sample_world None
              (errors.ConnectError connect.CodeInternal
                 (Some (errors.errorString "db down"))))
    as (w' & pre & summary & p & o & HW & Hc & _ & _ & _ & Hp & _ & _ & Hf & _).
  - apply Index_found. vm_compute. discriminate.
  - exact init_heap_ok.
  - reflexivity.
  - exists w', pre, summary, p, o. split; [exact HW|]. split; [exact Hc|].
    split; [exact Hp|]. apply (Hf _ eq_refl). vm_compute. discriminate.
Defined.






(** ** Concrete runs *)

(** The header names of the end-to-end scenario, in three spellings. *)
Example shouldRedactHeader_Authorization :
  headers.shouldRedactHeader "Authorization" [] = true
  ∧ headers.shouldRedactHeader "AUTHORIZATION" ["x-api-key"] = true
  ∧ headers.shouldRedactHeader "X-My-Token" [] = true
  ∧ headers.shouldRedactHeader "x-client-SECRET-id" [] = true
  ∧ headers.shouldRedactHeader "X-Api-Key" ["x-api-key"] = true
  ∧ headers.shouldRedactHeader "X-Api-Key" [] = false
  ∧ headers.shouldRedactHeader "Content-Type" ["x-api-key"] = false.
Proof. repeat split. Qed.

Example redactHeadersMap_sample :
  let '(r, σ) := headers.redactHeadersMap [sample_headers] 0 ["x-api-key"] in
  r = 1%nat
  ∧ σ !! 0%nat = Some sample_headers
  ∧ (σ !! r) ≫= (.!! "Authorization") = Some ["[REDACTED]"]
  ∧ (σ !! r) ≫= (.!! "X-My-Token") = Some ["[REDACTED]"]
  ∧ (σ !! r) ≫= (.!! "X-Api-Key") = Some ["[REDACTED]"]
  ∧ (σ !! r) ≫= (.!! "Content-Type") = Some ["application/json"]
  ∧ (σ !! r) ≫= (.!! "Accept") = None.
Proof. vm_compute. repeat split. Qed.

(** The table of [TestNewLoggableError] and [TestErrorReuse]. *)
Example newLoggableError_table :
  let classify e := errorsgo.newLoggableError e errorsgo.init_heap in
  let code r := (r.2 !! default 0%nat r.1) ≫= (λ o, Some (errors.Code (errorsgo.Error o))) in
  let message r := (r.2 !! default 0%nat r.1) ≫= (λ o, Some (errors.Message (errorsgo.Error o))) in
  (classify None).1 = None
  ∧ code (classify (Some (errors.errorString "something went wrong")))
    = Some connect.CodeUnknown
  ∧ message (classify (Some (errors.errorString "something went wrong")))
    = Some "something went wrong"
  ∧ code (classify (Some (errors.Sentinel errors.Canceled))) = Some connect.CodeCanceled
  ∧ message (classify (Some (errors.Sentinel errors.Canceled))) = Some "request canceled"
  ∧ code (classify (Some (errors.Sentinel errors.DeadlineExceeded)))
    = Some connect.CodeDeadlineExceeded
  ∧ message (classify (Some (errors.Sentinel errors.DeadlineExceeded)))
    = Some "request deadline exceeded"
  ∧ code (classify (Some (errors.ConnectError connect.CodeNotFound
                            (Some (errors.errorString "resource not found")))))
    = Some connect.CodeNotFound
  ∧ message (classify (Some (errors.ConnectError connect.CodeNotFound
                               (Some (errors.errorString "resource not found")))))
    = Some "resource not found"
  ∧ message (classify (Some (detailedError "email" "invalid format")))
    = Some "validation error"
  ∧ (classify (Some (errors.Sentinel errors.DeadlineExceeded))).1
    = (classify (Some (errors.Sentinel errors.ErrDeadlineExceeded))).1.
Proof. vm_compute. repeat split. Qed.

(** A streaming call with three sends and two receives that ends with
    [io.EOF], with debug logging off: one record, at info level. *)
Example WrapStreamingHandler_sample :
  interceptor.WrapStreamingHandler sample_interceptor (λ _, sample_stream_handler)
    0 7000000 tt 5%nat sample_world
  = Ok (Some (errors.Sentinel errors.EOF), 0%nat,
        {| interceptor.maps := [sample_headers];
           interceptor.errs := errorsgo.init_heap;
           interceptor.calls :=
             [ {| slog.level := slog.LevelInfo;
                  slog.msg := "stream completed";
                  slog.attrs :=
                    [ ("service", slog.VString "acme.v1.Chat");
                      ("method", slog.VString "Talk");
                      ("protocol", slog.VString "grpc");
                      ("addr", slog.VString "10.0.0.1:443");
                      ("trace_id", slog.VString "123");
                      ("messages", slog.VGroup [ ("sent", slog.VInt64 3);
                                                 ("received", slog.VInt64 2) ]);
                      ("duration", slog.VDuration 7000000) ] |} ] |}).
Proof. vm_compute. reflexivity. Qed.

(** A unary call that succeeds: one record, at info level, with both sizes. *)
Example WrapUnary_sample :
  interceptor.WrapUnary sample_interceptor succeeding 0 5000000 tt
    sample_request sample_world
  = Ok (Some {| interceptor.res_Header := 0%nat; interceptor.res_Any := slog.Str "world" |},
        None,
        {| interceptor.maps := [sample_headers];
           interceptor.errs := errorsgo.init_heap;
           interceptor.calls :=
             [ {| slog.level := slog.LevelInfo;
                  slog.msg := "request completed";
                  slog.attrs :=
                    [ ("service", slog.VString "acme.v1.Ping");
                      ("method", slog.VString "Echo");
                      ("protocol", slog.VString "connect");
                      ("addr", slog.VString "10.0.0.1:443");
                      ("trace_id", slog.VString "123");
                      ("duration", slog.VDuration 5000000);
                      ("request_size", slog.VInt64 5);
                      ("response_size", slog.VInt64 5) ] |} ] |}).
Proof. vm_compute. reflexivity. Qed.

(** * Further properties of the code *)

(** ** headers.go *)

Lemma bool_eq_iff (b1 b2 : bool) : (b1 = true ↔ b2 = true) → b1 = b2.
Proof. destruct b1, b2; intros [H1 H2]; auto; symmetry; auto. Qed.

Lemma sensitive_eq_fold (k k' : string) (names : list string) :
  eq_fold k k' → sensitive k names ↔ sensitive k' names.
Proof.
  unfold sensitive, builtin_sensitive, eq_fold. intros ->. reflexivity.
Qed.

Lemma sensitive_lowered_names (k : string) (names : list string) :
  sensitive k (map strings.ToLower names) ↔ sensitive k names.
Proof.
  unfold sensitive. split; (intros [(n & Hn & He)|Hb]; [left|right; exact Hb]).
  - apply list_elem_of_fmap in Hn as (n' & -> & Hn').
    exists n'. split; [exact Hn'|]. unfold eq_fold in *. rewrite He. apply ToLower_idem.
  - exists (strings.ToLower n). split; [apply list_elem_of_fmap_2, Hn|].
    unfold eq_fold in *. rewrite He. symmetry. apply ToLower_idem.
Qed.

(** X1: for keys and configured names within ASCII, the verdict of
    [shouldRedactHeader] does not depend on the case of the key, nor on the
    case of the configured names, nor on their order or repetition in the
    list. *)
Theorem shouldRedactHeader_case_insensitive (k : string) (names : list string) :
  ascii_text k →
  Forall ascii_text names →
  (∀ k', ascii_text k' → eq_fold k k' →
     headers.shouldRedactHeader k names = headers.shouldRedactHeader k' names)
  ∧ headers.shouldRedactHeader k (map strings.ToLower names)
    = headers.shouldRedactHeader k names
  ∧ (∀ names', Forall ascii_text names' → (∀ n, n ∈ names ↔ n ∈ names') →
       headers.shouldRedactHeader k names = headers.shouldRedactHeader k names').
Proof.
  intros Hk Hnames. split; [|split].
  - intros k' Hk' He. apply bool_eq_iff. rewrite !shouldRedactHeader_spec.
    apply sensitive_eq_fold, He.
  - apply bool_eq_iff. rewrite !shouldRedactHeader_spec. apply sensitive_lowered_names.
  - intros names' _ Hn. apply bool_eq_iff. rewrite !shouldRedactHeader_spec.
    unfold sensitive. split; (intros [(n & Hin & He)|Hb]; [left|right; exact Hb]);
      exists n; (split; [apply Hn, Hin | exact He]).
Qed.

Lemma shouldRedactHeader_case_insensitive_witness :
  headers.shouldRedactHeader "X-API-Key" ["X-Api-Key"; "x-trace"]
  = headers.shouldRedactHeader "x-api-key" ["X-Api-Key"; "x-trace"]
  ∧ headers.shouldRedactHeader "X-API-Key" ["X-Api-Key"; "x-trace"]
    = headers.shouldRedactHeader "X-API-Key" ["x-trace"; "X-Api-Key"; "x-trace"].
Proof.
  destruct (shouldRedactHeader_case_insensitive "X-API-Key" ["X-Api-Key"; "x-trace"])
    as (Hk & _ & Hn).
  - apply ascii_text_decide. vm_compute. reflexivity.
  - repeat constructor; apply ascii_text_decide; vm_compute; reflexivity.
  - split.
    + apply Hk; [apply ascii_text_decide; vm_compute; reflexivity | reflexivity].
    + apply Hn; [repeat constructor; apply ascii_text_decide; vm_compute; reflexivity|].
      intros n. rewrite !elem_of_cons. tauto.
Defined.

(** X2: configuring more names never takes a key out of redaction: a key
    redacted for a list is redacted for every list that contains its
    names, and the built-in rules redact it for every list. *)
Theorem shouldRedactHeader_monotone (k : string) (names names' : list string) :
  (∀ n, n ∈ names → n ∈ names') →
  headers.shouldRedactHeader k names = true →
  headers.shouldRedactHeader k names' = true.
Proof.
  intros Hsub. rewrite !shouldRedactHeader_spec.
  intros [(n & Hin & He)|Hb]; [left; exists n; auto | right; exact Hb].
Qed.

Lemma shouldRedactHeader_monotone_witness :
  headers.shouldRedactHeader "X-Api-Key" ["x-trace"; "x-api-key"] = true.
Proof.
  apply (shouldRedactHeader_monotone "X-Api-Key" ["x-api-key"] ["x-trace"; "x-api-key"]).
  - intros n. rewrite !elem_of_cons. tauto.
  - reflexivity.
Defined.

Lemma append_empty_r (s : string) : s +:+ "" = s.
Proof.
  induction s as [|c s IH]; [reflexivity|]. rewrite append_cons, IH. reflexivity.
Qed.

Lemma substring_refl (s : string) : substring s s.
Proof.
  exists "", "". change ("" +:+ s +:+ "") with (s +:+ "").
  symmetry. apply append_empty_r.
Qed.

(** X3: the default list of [New], [authorization] and [token], adds
    nothing to the built-in rules: for a key within ASCII, an interceptor
    built without options redacts the key exactly when the empty list
    does, that is, exactly when the key is one of the built-in ones. *)
Theorem New_default_redaction {Ctx : Type} (dflt : slog.Logger) (k : string) :
  ascii_text k →
  headers.shouldRedactHeader k
    (interceptor.redactHeaders (interceptor.New (Ctx := Ctx) dflt []))
  = headers.shouldRedactHeader k []
  ∧ (headers.shouldRedactHeader k [] = true ↔ builtin_sensitive k).
Proof.
  intros Hk.
  split.
  - apply bool_eq_iff. rewrite !shouldRedactHeader_spec. cbn.
    unfold sensitive. split; (intros [(n & Hin & He)|Hb]; [|right; exact Hb]).
    + right. unfold builtin_sensitive.
      apply elem_of_cons in Hin as [->|Hin]; [left; exact He|].
      apply elem_of_cons in Hin as [->|Hin]; [|inversion Hin].
      right. left. unfold eq_fold in He. rewrite He. apply substring_refl.
    + inversion Hin.
  - rewrite shouldRedactHeader_spec. unfold sensitive.
    split; [intros [(n & Hin & _)|Hb]; [inversion Hin | exact Hb] | intros Hb; right; exact Hb].
Qed.

Lemma redacted_copy_idem (names : list string) (H : headers.Header) :
  redacted_copy names (redacted_copy names H) = redacted_copy names H.
Proof.
  apply map_eq. intros k. unfold redacted_copy. rewrite !map_lookup_imap.
  destruct (H !! k) as [v|]; [|reflexivity]. cbn.
  destruct (headers.shouldRedactHeader k names); reflexivity.
Qed.

Lemma redactHeadersMap_content (σ : list headers.Header) (h : nat) (names : list string) :
  headers.redactHeadersMap σ h names
  = (length σ, σ ++ [redacted_copy names (default ∅ (σ !! h))]).
Proof. unfold headers.redactHeadersMap. rewrite redactHeadersMap_fold. reflexivity. Qed.

(** X4: redacting is idempotent: redacting the map [redactHeadersMap]
    returned gives, at a further fresh address, a map with the same
    content; and a nil header (an address without map) gives an empty map. *)
Theorem redactHeadersMap_idempotent (σ : list headers.Header) (h : nat)
    (names : list string) :
  let r1 := headers.redactHeadersMap σ h names in
  let r2 := headers.redactHeadersMap r1.2 r1.1 names in
  r2.1 ≠ r1.1
  ∧ is_Some (r1.2 !! r1.1)
  ∧ r2.2 !! r2.1 = r1.2 !! r1.1
  ∧ (σ !! h = None → r1.2 !! r1.1 = Some ∅).
Proof.
  cbv zeta. rewrite (redactHeadersMap_content σ h). cbn [fst snd].
  rewrite redactHeadersMap_content. cbn [fst snd].
  rewrite length_app. cbn [length].
  assert ((σ ++ [redacted_copy names (default ∅ (σ !! h))]) !! length σ
          = Some (redacted_copy names (default ∅ (σ !! h)))) as Hl.
  { rewrite lookup_app_r by lia. rewrite Nat.sub_diag. reflexivity. }
  split; [lia|]. split; [rewrite Hl; eexists; reflexivity|].
  split.
  - rewrite Hl. cbn [default].
    rewrite lookup_app_r by (rewrite length_app; cbn; lia).
    rewrite length_app. cbn [length].
    replace (length σ + 1 - (length σ + 1))%nat with 0%nat by lia.
    cbn. rewrite redacted_copy_idem. reflexivity.
  - intros Hn. rewrite Hl, Hn. cbn [default]. unfold redacted_copy.
    rewrite map_imap_empty. reflexivity.
Qed.

Lemma redactHeadersMap_idempotent_witness :
  (headers.redactHeadersMap [sample_headers] 5 ["x-api-key"]).2
    !! (headers.redactHeadersMap [sample_headers] 5 ["x-api-key"]).1
  = Some ∅.
Proof.
  apply (redactHeadersMap_idempotent [sample_headers] 5 ["x-api-key"]).
  reflexivity.
Defined.

(** ** options.go and the constructor *)

(** X5: in the option list of [New] the last option for a field wins and
    options for different fields commute; a nil logger is replaced by the
    discarding logger, and without options the interceptor has the default
    logger, the default names and no hook. *)
Theorem New_options_compose {Ctx : Type} (dflt : slog.Logger)
    (opts : list (@interceptor.Option_ Ctx)) (hs hs' : list string)
    (l l' : option slog.Logger) (f : interceptor.ContextLogFunc Ctx) :
  interceptor.redactHeaders (interceptor.New dflt (opts ++ [interceptor.WithRedactHeaders hs]))
  = hs
  ∧ interceptor.New dflt
      (opts ++ [interceptor.WithRedactHeaders hs'; interceptor.WithRedactHeaders hs])
    = interceptor.New dflt (opts ++ [interceptor.WithRedactHeaders hs])
  ∧ interceptor.New dflt (opts ++ [interceptor.WithLogger l'; interceptor.WithLogger l])
    = interceptor.New dflt (opts ++ [interceptor.WithLogger l])
  ∧ interceptor.New dflt (opts ++ [interceptor.WithRedactHeaders hs; interceptor.WithLogger l])
    = interceptor.New dflt (opts ++ [interceptor.WithLogger l; interceptor.WithRedactHeaders hs])
  ∧ interceptor.New dflt
      (opts ++ [interceptor.WithRedactHeaders hs; interceptor.WithContextLogFn f])
    = interceptor.New dflt
        (opts ++ [interceptor.WithContextLogFn f; interceptor.WithRedactHeaders hs])
  ∧ interceptor.i_logger (interceptor.New dflt (opts ++ [interceptor.WithLogger None]))
    = interceptor.discard_logger
  ∧ interceptor.contextLogFn (interceptor.New dflt (opts ++ [interceptor.WithContextLogFn f]))
    = f
  ∧ interceptor.New (Ctx := Ctx) dflt []
    = {| interceptor.i_logger := dflt;
         interceptor.redactHeaders := ["authorization"; "token"];
         interceptor.contextLogFn := None |}.
Proof.
  unfold interceptor.New. rewrite !foldl_app. cbn.
  repeat split.
Qed.

(** ** errors.go *)

(** X6: the classifier never changes an object of the heap and allocates
    at most one: the heap it returns is the one it got, or that heap with
    one object appended, and then the result is the address of that
    object. *)
Theorem newLoggableError_frame (err : option errors.error) (ρ : errorsgo.ErrHeap) :
  let r := errorsgo.newLoggableError err ρ in
  (∀ a o, ρ !! a = Some o → r.2 !! a = Some o)
  ∧ (r.2 = ρ ∨ ∃ o, r.2 = ρ ++ [o] ∧ r.1 = Some (length ρ))
  ∧ (err = None → r = (None, ρ)).
Proof.
  cbv zeta.
  assert (errorsgo.newLoggableError err ρ = (None, ρ) ∧ err = None
          ∨ (∃ p, errorsgo.newLoggableError err ρ = (Some p, ρ))
          ∨ ∃ o, errorsgo.newLoggableError err ρ = (Some (length ρ), ρ ++ [o])) as Hcases.
  { unfold errorsgo.newLoggableError, errorsgo.alloc. destruct err as [e|]; [|left; auto].
    right. destruct (errors.As_connect e); [right; eexists; reflexivity|].
    destruct (errors.Is e errors.Canceled); [left; eexists; reflexivity|].
    destruct (_ || _); [left; eexists; reflexivity | right; eexists; reflexivity]. }
  destruct Hcases as [[Heq ->] | [(p & Heq) | (o & Heq)]]; rewrite Heq; cbn [fst snd].
  - split; [auto|]. split; [left; reflexivity | reflexivity].
  - split; [auto|]. split; [left; reflexivity|].
    intros ->. cbn in Heq. discriminate.
  - split.
    + intros a o' Ha. rewrite lookup_app_l; [exact Ha|]. eapply lookup_lt_Some, Ha.
    + split; [right; exists o; split; reflexivity|].
      intros ->. cbn in Heq. discriminate.
Qed.

Lemma newLoggableError_frame_witness :
  errorsgo.newLoggableError None errorsgo.init_heap = (None, errorsgo.init_heap).
Proof.
  apply (newLoggableError_frame None errorsgo.init_heap). reflexivity.
Defined.

(** X7: wrapping an error with [fmt.Errorf] and [%w] does not change how it
    is classified: the code is the same, and for an error that is
    recognised (a connect error along the chain, a cancellation, a deadline
    expiry) so is the whole result; for an error that is not, the message
    becomes the text of the wrapper. *)
Theorem classified_wrapError (ρ : errorsgo.ErrHeap) (text : string) (e : errors.error) :
  heap_ok ρ →
  errors.code <$> classified (errors.wrapError text e) ρ = errors.code <$> classified e ρ
  ∧ is_Some (classified e ρ)
  ∧ (¬ unrecognized e → classified (errors.wrapError text e) ρ = classified e ρ)
  ∧ (unrecognized e →
       errors.Message <$> classified (errors.wrapError text e) ρ = Some text
       ∧ errors.Message <$> classified e ρ = Some (errors.Error_text e)).
Proof.
  intros [H1 H2]. unfold classified, errorsgo.newLoggableError, errorsgo.alloc, unrecognized.
  cbn [errors.As_connect errors.Is].
  destruct (errors.As_connect e) as [ce|].
  { rewrite alloc_lookup. cbn.
    split; [reflexivity|]. split; [eexists; reflexivity|].
    split; [reflexivity|]. intros (Hc & _). discriminate. }
  destruct (errors.Is e errors.Canceled).
  { rewrite H1. cbn.
    split; [reflexivity|]. split; [eexists; reflexivity|].
    split; [reflexivity|]. intros (_ & Hc & _). discriminate. }
  destruct (errors.Is e errors.DeadlineExceeded).
  { cbn [orb]. rewrite H2. cbn.
    split; [reflexivity|]. split; [eexists; reflexivity|].
    split; [reflexivity|]. intros (_ & _ & Hc & _). discriminate. }
  destruct (errors.Is e errors.ErrDeadlineExceeded).
  { cbn [orb]. rewrite H2. cbn.
    split; [reflexivity|]. split; [eexists; reflexivity|].
    split; [reflexivity|]. intros (_ & _ & _ & Hc). discriminate. }
  cbn [orb]. rewrite !alloc_lookup. cbn.
  split; [reflexivity|]. split; [eexists; reflexivity|].
  split; [intros Hn; contradiction Hn; repeat split|].
  intros _. split; reflexivity.
Qed.

Lemma classified_wrapError_witness :
  errors.code <$> classified
    (errors.wrapError "query: context canceled" (errors.Sentinel errors.Canceled))
    errorsgo.init_heap
  = Some connect.CodeCanceled.
Proof.
  destruct (classified_wrapError errorsgo.init_heap "query: context canceled"
              (errors.Sentinel errors.Canceled) init_heap_ok) as [Hc _].
  rewrite Hc. reflexivity.
Defined.

(** X8: the structured form of what the classifier returns is always
    available and always starts with the two fields code and message, in
    this order, whatever the original error exposes; the code field is the
    name of the classified code. *)
Theorem LogValue_of_classified (ρ : errorsgo.ErrHeap) (e : errors.error) :
  heap_ok ρ →
  ∃ p ρ' o,
    errorsgo.newLoggableError (Some e) ρ = (Some p, ρ')
    ∧ ρ' !! p = Some o
    ∧ errorsgo.LogValue (Some p) ρ' = Ok (errorsgo.LogValue_obj o)
    ∧ slog.Value_Kind (errorsgo.LogValue_obj o) = slog.KindGroup
    ∧ take 2 (slog.Value_Group (errorsgo.LogValue_obj o))
      = [ ("code", slog.VString (connect.Code_String (errors.code (errorsgo.Error o))));
          ("message", slog.VString (errors.Message (errorsgo.Error o))) ].
Proof.
  intros Hok. destruct (newLoggableError_valid e ρ Hok) as (p & ρ' & o & Hn & Hp).
  exists p, ρ', o. split; [exact Hn|]. split; [exact Hp|].
  split; [unfold errorsgo.LogValue; rewrite Hp; reflexivity|].
  split; [reflexivity|].
  rewrite LogValue_obj_unfold. unfold slog.GroupValue. cbn [slog.Value_Group].
  destruct (errors.As_LogValuer (origErr o)) as [v|]; [|reflexivity].
  destruct (slog.Value_Kind v); rewrite filter_app; reflexivity.
Qed.

Lemma LogValue_of_classified_witness :
  ∃ p ρ' o,
    errorsgo.newLoggableError (Some (detailedError "email" "invalid format"))
      errorsgo.init_heap = (Some p, ρ')
    ∧ errorsgo.LogValue (Some p) ρ' = Ok (errorsgo.LogValue_obj o).
Proof.
  destruct (LogValue_of_classified errorsgo.init_heap
              (detailedError "email" "invalid format") init_heap_ok)
    as (p & ρ' & o & Hn & _ & Hl & _).
  exists p, ρ', o. split; assumption.
Defined.

(** ** The request logger, further *)

Lemma take_drop (n : nat) (s : string) : strings.take n s +:+ strings.drop n s = s.
Proof.
  revert s. induction n as [|n IH]; intros [|c s]; try reflexivity.
  cbn [strings.take strings.drop]. rewrite append_cons, IH. reflexivity.
Qed.

Lemma substring_cons_inv (c : ascii) (t : string) :
  substring "/" (String c t) → c = "/"%char ∨ substring "/" t.
Proof.
  intros ([|a pre] & post & Heq).
  - left. change ("" +:+ "/" +:+ post) with (String "/" post) in Heq. congruence.
  - right. rewrite append_cons in Heq. injection Heq as _ ->. exists pre, post. reflexivity.
Qed.

Lemma no_substring_empty : ¬ substring "/" "".
Proof. intros ([|a pre] & post & Heq); discriminate. Qed.

(** Where [Index] finds the separator, the string splits into the text
    before it, which holds no separator, and the text after it. *)
Lemma Index_split (s : string) :
  0 ≤ strings.Index s "/" →
  strings.take (Z.to_nat (strings.Index s "/")) s +:+ "/"
    +:+ strings.drop (Z.to_nat (strings.Index s "/" + 1)) s = s
  ∧ ¬ substring "/" (strings.take (Z.to_nat (strings.Index s "/")) s).
Proof.
  induction s as [|c s IH].
  - rewrite Index_nil. cbn. lia.
  - rewrite Index_cons. destruct (strings.HasPrefix (String c s) "/") eqn:E.
    + intros _. cbn in E. destruct (Ascii.eqb c "/") eqn:Ec; [|discriminate].
      apply Ascii.eqb_eq in Ec as ->. split; [reflexivity | apply no_substring_empty].
    + destruct (Z.ltb_spec (strings.Index s "/") 0) as [|Hge]; [lia|]. intros _.
      destruct (IH Hge) as [Heq Hno].
      replace (Z.to_nat (strings.Index s "/" + 1)) with (S (Z.to_nat (strings.Index s "/")))
        in * by lia.
      replace (Z.to_nat (strings.Index s "/" + 1 + 1))
        with (S (S (Z.to_nat (strings.Index s "/")))) by lia.
      cbn [strings.take strings.drop]. split.
      * rewrite append_cons. f_equal. exact Heq.
      * intros Hs. apply substring_cons_inv in Hs as [->|Hs]; [|exact (Hno Hs)].
        assert (strings.HasPrefix (String "/" s) "/" = true); [|congruence].
        apply HasPrefix_spec. exists s. reflexivity.
Qed.

Lemma foldl_With_bound (attrs : list slog.Attr) (l : slog.Logger) :
  slog.bound (foldl (λ l attr, slog.With l [attr]) l attrs) = slog.bound l ++ attrs
  ∧ slog.Enabled (foldl (λ l attr, slog.With l [attr]) l attrs) = slog.Enabled l.
Proof.
  revert l. induction attrs as [|a attrs IH]; intros l.
  - cbn. rewrite app_nil_r. auto.
  - cbn [foldl]. destruct (IH (slog.With l [a])) as [-> ->]. cbn.
    rewrite <- app_assoc. auto.
Qed.

(** X9: on every identifier that holds a separator after its leading one is
    stripped, [initRequestLogger] returns a logger and the split loses
    nothing: service, separator and method put together are the stripped
    identifier, and the service holds no separator.  The logger has the
    enablement of the interceptor's logger and its attributes, followed by
    service, method, protocol and addr, followed by the attributes of the
    context hook in the order the hook gives them. *)
Theorem initRequestLogger_round_trip {Ctx} (i : interceptor.loggingInterceptor Ctx)
    (c : Ctx) (spec : connect.Spec) (peer : connect.Peer) :
  splittable (connect.Procedure spec) →
  ∃ service method logger,
    interceptor.initRequestLogger i c spec peer = Ok logger
    ∧ service +:+ "/" +:+ method = strings.TrimPrefix (connect.Procedure spec) "/"
    ∧ ¬ substring "/" service
    ∧ slog.Enabled logger = slog.Enabled (interceptor.i_logger i)
    ∧ slog.bound logger
      = slog.bound (interceptor.i_logger i)
        ++ [ ("service", slog.VString service);
             ("method", slog.VString method);
             ("protocol", slog.VString (connect.Protocol peer));
             ("addr", slog.VString (connect.Addr peer)) ]
        ++ match interceptor.contextLogFn i with
           | Some fn => fn c
           | None => []
           end.
Proof.
  unfold splittable. intros Hs. apply Index_found in Hs.
  pose proof (Index_room _ _ Hs) as Hr. change (strings.len "/") with 1 in Hr.
  destruct (Index_split _ Hs) as [Heq Hno].
  unfold interceptor.initRequestLogger, strings.slice_to, strings.slice_from.
  set (procedure := strings.TrimPrefix (connect.Procedure spec) "/") in *.
  set (idx := strings.Index procedure "/") in *.
  replace ((0 <=? idx) && (idx <=? strings.len procedure))%bool with true
    by (symmetry; apply andb_true_intro; split; apply Z.leb_le; lia).
  replace ((0 <=? idx + 1) && (idx + 1 <=? strings.len procedure))%bool with true
    by (symmetry; apply andb_true_intro; split; apply Z.leb_le; lia).
  cbn [mbind result_bind mret result_ret].
  eexists _, _, _. split; [reflexivity|]. split; [exact Heq|]. split; [exact Hno|].
  destruct (interceptor.contextLogFn i) as [fn|].
  - destruct (foldl_With_bound (fn c)
                (slog.With (interceptor.i_logger i)
                   [ slog.String_ "service" (strings.take (Z.to_nat idx) procedure);
                     slog.String_ "method" (strings.drop (Z.to_nat (idx + 1)) procedure);
                     slog.String_ "protocol" (connect.Protocol peer);
                     slog.String_ "addr" (connect.Addr peer) ])) as [Hb He].
    split; [rewrite He; reflexivity|]. rewrite Hb. cbn. rewrite <- app_assoc. reflexivity.
  - split; [reflexivity|]. cbn. reflexivity.
Qed.

Lemma initRequestLogger_round_trip_witness :
  ∃ service method logger,
    interceptor.initRequestLogger sample_interceptor tt
      {| connect.Procedure := "/acme.v1.Ping/Echo/v2" |} sample_peer = Ok logger
    ∧ service +:+ "/" +:+ method = "acme.v1.Ping/Echo/v2"
    ∧ ¬ substring "/" service.
Proof.
  destruct (initRequestLogger_round_trip sample_interceptor tt
              {| connect.Procedure := "/acme.v1.Ping/Echo/v2" |} sample_peer)
    as (service & method & logger & Hl & Heq & Hno & _).
  - apply Index_found. vm_compute. discriminate.
  - exists service, method, logger. split; [exact Hl|]. split; [exact Heq | exact Hno].
Defined.

(** The logger for an identifier whose stripped form is [service/method]. *)
Lemma initRequestLogger_on {Ctx} (i : interceptor.loggingInterceptor Ctx) (c : Ctx)
    (spec : connect.Spec) (peer : connect.Peer) (service method : string) :
  strings.TrimPrefix (connect.Procedure spec) "/" = service +:+ "/" +:+ method →
  ¬ substring "/" service →
  interceptor.initRequestLogger i c spec peer
  = Ok (request_logger i c service method peer).
Proof.
  intros Ht Hno. unfold interceptor.initRequestLogger.
  rewrite Ht, Index_separator by exact Hno.
  unfold strings.slice_to, strings.slice_from.
  rewrite !len_append. change (strings.len "/") with 1.
  assert (0 ≤ strings.len service) as H0 by (unfold strings.len; lia).
  assert (0 ≤ strings.len method) as H1 by (unfold strings.len; lia).
  replace ((0 <=? strings.len service)
           && (strings.len service <=? strings.len service + (1 + strings.len method)))%bool
    with true by (symmetry; apply andb_true_intro; split; apply Z.leb_le; lia).
  replace ((0 <=? strings.len service + 1)
           && (strings.len service + 1 <=? strings.len service + (1 + strings.len method)))%bool
    with true by (symmetry; apply andb_true_intro; split; apply Z.leb_le; lia).
  unfold strings.len. rewrite Nat2Z.id.
  replace (Z.to_nat (Z.of_nat (String.length service) + 1))
    with (S (String.length service)) by lia.
  rewrite take_append.
  change ("/" +:+ method) with (String "/" method).
  rewrite drop_past_separator. reflexivity.
Qed.

(** X10: the leading separator is optional and only one is stripped.  For
    a non-empty service without separator, [service/method] and
    [/service/method] give the same logger; [//method] has the empty
    service, whereas [/method], when [method] holds no separator, makes
    [initRequestLogger] panic. *)
Theorem initRequestLogger_leading_separator {Ctx} (i : interceptor.loggingInterceptor Ctx)
    (c : Ctx) (peer : connect.Peer) (service method : string) :
  ¬ substring "/" service →
  (service ≠ "" →
     interceptor.initRequestLogger i c
       {| connect.Procedure := service +:+ "/" +:+ method |} peer
     = interceptor.initRequestLogger i c
         {| connect.Procedure := "/" +:+ service +:+ "/" +:+ method |} peer)
  ∧ interceptor.initRequestLogger i c
      {| connect.Procedure := "/" +:+ service +:+ "/" +:+ method |} peer
    = Ok (request_logger i c service method peer)
  ∧ interceptor.initRequestLogger i c {| connect.Procedure := "//" +:+ method |} peer
    = Ok (request_logger i c "" method peer)
  ∧ interceptor.initRequestLogger i c {| connect.Procedure := "/" +:+ service |} peer
    = Panic (SliceBoundsOutOfRange (-1) (strings.len service)).
Proof.
  intros Hno.
  assert (interceptor.initRequestLogger i c
            {| connect.Procedure := "/" +:+ service +:+ "/" +:+ method |} peer
          = Ok (request_logger i c service method peer)) as Hslash.
  { apply initRequestLogger_on; [|exact Hno]. cbn [connect.Procedure].
    change ("/" +:+ service +:+ "/" +:+ method)
      with (String "/" (service +:+ "/" +:+ method)).
    apply TrimPrefix_separator. }
  split; [|split; [exact Hslash|split]].
  - intros Hne. rewrite Hslash. apply initRequestLogger_on; [|exact Hno].
    cbn [connect.Procedure]. destruct service as [|a s]; [contradiction Hne; reflexivity|].
    rewrite append_cons. unfold strings.TrimPrefix. cbn [strings.HasPrefix].
    destruct (Ascii.eqb a "/") eqn:Ea; [|reflexivity].
    apply Ascii.eqb_eq in Ea as ->. exfalso. apply Hno. exists "", s. reflexivity.
  - apply initRequestLogger_on; [|apply no_substring_empty]. cbn [connect.Procedure].
    change ("//" +:+ method) with (String "/" ("" +:+ "/" +:+ method)).
    apply TrimPrefix_separator.
  - unfold interceptor.initRequestLogger, strings.slice_to. cbn [connect.Procedure].
    change ("/" +:+ service) with (String "/" service).
    rewrite TrimPrefix_separator.
    apply Index_absent in Hno. rewrite Hno. reflexivity.
Qed.

Lemma initRequestLogger_leading_separator_witness :
  interceptor.initRequestLogger sample_interceptor tt
    {| connect.Procedure := "acme.v1.Ping/Echo" |} sample_peer
  = interceptor.initRequestLogger sample_interceptor tt
      {| connect.Procedure := "/acme.v1.Ping/Echo" |} sample_peer.
Proof.
  destruct (initRequestLogger_leading_separator sample_interceptor tt sample_peer
              "acme.v1.Ping" "Echo") as [Hopt _].
  - apply Index_absent. reflexivity.
  - apply Hopt. discriminate.
Defined.

(** ** The interceptor, further *)

Lemma debug_if_exact {Ctx} (i : interceptor.loggingInterceptor Ctx)
    (logger : slog.Logger) (m : string) (header : nat) (before : list slog.Attr)
    (w : interceptor.world) :
  (if slog.Enabled logger slog.LevelDebug
   then interceptor.debug_headers i logger m header before w else w)
  = after_debug i logger m header before w.
Proof.
  unfold after_debug, interceptor.debug_headers.
  destruct (slog.Enabled logger slog.LevelDebug); [|reflexivity].
  rewrite redactHeadersMap_content. reflexivity.
Qed.

Lemma request_logger_Enabled {Ctx} (i : interceptor.loggingInterceptor Ctx) (c : Ctx)
    (service method : string) (peer : connect.Peer) :
  slog.Enabled (request_logger i c service method peer)
  = slog.Enabled (interceptor.i_logger i).
Proof.
  unfold request_logger. destruct (interceptor.contextLogFn i) as [fn|]; [|reflexivity].
  rewrite (proj2 (foldl_With_bound _ _)). reflexivity.
Qed.

Section unary_exact.
Context {Ctx : Type}.
Implicit Types (i : interceptor.loggingInterceptor Ctx)
  (next : interceptor.UnaryFunc Ctx) (w : interceptor.world).

(** The failure path of [WrapUnary], with the world before the summary
    spelled out. *)
Lemma WrapUnary_failure_exact i next start finish (c : Ctx) req w res e :
  splittable (connect.Procedure (interceptor.req_Spec req)) →
  heap_ok (interceptor.errs w) →
  next c req = (res, Some e) →
  ∃ service method p ρ o,
    interceptor.initRequestLogger i c (interceptor.req_Spec req) (interceptor.req_Peer req)
    = Ok (request_logger i c service method (interceptor.req_Peer req))
    ∧ errorsgo.newLoggableError (Some e) (interceptor.errs w) = (Some p, ρ)
    ∧ ρ !! p = Some o
    ∧ interceptor.WrapUnary i next start finish c req w
      = Ok (res, Some e,
            let logger := request_logger i c service method (interceptor.req_Peer req) in
            let w1 := after_debug i logger "request started" (interceptor.req_Header req)
                        [slog.Any "request" (interceptor.req_Any req)] w in
            {| interceptor.maps := interceptor.maps w1;
               interceptor.errs := ρ;
               interceptor.calls :=
                 interceptor.calls w1 ++
                   [ {| slog.level :=
                          if (errors.code (errorsgo.Error o) <? connect.CodeInternal)%N
                          then slog.LevelWarn else slog.LevelError;
                        slog.msg := "request failed";
                        slog.attrs :=
                          slog.bound logger ++ unary_attrs start finish req
                          ++ [("error",
                               slog.VLogValuer (slog.LoggableErrorPtr (Some p)))] |} ] |}).
Proof.
  intros Hs Hok Hn.
  destruct (initRequestLogger_ok i c _ (interceptor.req_Peer req) Hs)
    as (service & method & Hl).
  unfold interceptor.WrapUnary. rewrite Hl. cbn [mbind result_bind]. rewrite Hn.
  rewrite debug_if_exact. cbv zeta.
  set (logger := request_logger i c service method (interceptor.req_Peer req)).
  set (w1 := after_debug i logger _ _ _ w).
  assert (interceptor.errs w1 = interceptor.errs w) as He1
    by (subst w1; unfold after_debug; destruct (slog.Enabled _ _); reflexivity).
  assert (heap_ok (interceptor.errs w1)) as Hok1 by (rewrite He1; exact Hok).
  set (logAttrs := if 0 <=? _ then _ else _).
  destruct (log_failure_spec logger "request failed" logAttrs e w1 Hok1)
    as (p & ρ & o & Hc & Hp & Hf).
  exists service, method, p, ρ, o. rewrite <- He1.
  split; [reflexivity|]. split; [exact Hc|]. split; [exact Hp|].
  rewrite Hf. cbn [mbind result_bind mret result_ret].
  subst logAttrs. unfold unary_attrs.
  destruct (0 <=? size.calculateSize (interceptor.req_Any req)); reflexivity.
Qed.

(** The success path of [WrapUnary], with the world before the summary
    spelled out. *)
Lemma WrapUnary_success_exact i next start finish (c : Ctx) req w r :
  splittable (connect.Procedure (interceptor.req_Spec req)) →
  next c req = (Some r, None) →
  ∃ service method,
    interceptor.initRequestLogger i c (interceptor.req_Spec req) (interceptor.req_Peer req)
    = Ok (request_logger i c service method (interceptor.req_Peer req))
    ∧ interceptor.WrapUnary i next start finish c req w
    = Ok (Some r, None,
          let logger := request_logger i c service method (interceptor.req_Peer req) in
          let w1 := after_debug i logger "request started" (interceptor.req_Header req)
                      [slog.Any "request" (interceptor.req_Any req)] w in
          let w2 := after_debug i logger "response completed" (interceptor.res_Header r)
                      [slog.Any "response" (interceptor.res_Any r)] w1 in
          interceptor.emit w2
            {| slog.level := slog.LevelInfo;
               slog.msg := "request completed";
               slog.attrs :=
                 slog.bound logger ++ unary_attrs start finish req
                 ++ (if 0 <=? size.calculateSize (interceptor.res_Any r)
                     then [("response_size",
                            slog.VInt64 (size.calculateSize (interceptor.res_Any r)))]
                     else []) |}).
Proof.
  intros Hs Hn.
  destruct (initRequestLogger_ok i c _ (interceptor.req_Peer req) Hs)
    as (service & method & Hl).
  unfold interceptor.WrapUnary. rewrite Hl. cbn [mbind result_bind]. rewrite Hn.
  cbn [mbind result_bind mret result_ret]. rewrite !debug_if_exact.
  exists service, method. split; [reflexivity|]. cbv zeta. unfold slog.log, unary_attrs.
  destruct (0 <=? size.calculateSize (interceptor.req_Any req));
    destruct (0 <=? size.calculateSize (interceptor.res_Any r)); reflexivity.
Qed.
End unary_exact.



(** X11: with debug logging off, a unary call on a splittable identifier
    whose handler does not return a nil response together with a nil error
    writes its summary and nothing else, and no header map is allocated:
    the interceptor does not look at the headers at all. *)
Theorem WrapUnary_quiet {Ctx} (i : interceptor.loggingInterceptor Ctx)
    (next : interceptor.UnaryFunc Ctx) (start finish : Z) (c : Ctx)
    (req : interceptor.AnyRequest) (w : interceptor.world) :
  slog.Enabled (interceptor.i_logger i) slog.LevelDebug = false →
  splittable (connect.Procedure (interceptor.req_Spec req)) →
  heap_ok (interceptor.errs w) →
  next c req ≠ (None, None) →
  ∃ w' summary,
    interceptor.WrapUnary i next start finish c req w
    = Ok ((next c req).1, (next c req).2, w')
    ∧ interceptor.maps w' = interceptor.maps w
    ∧ interceptor.calls w' = interceptor.calls w ++ [summary]
    ∧ slog.level summary ≠ slog.LevelDebug.
Proof.
  intros Hq Hs Hok Hne. destruct (next c req) as [res err] eqn:Hn. cbn [fst snd].
  destruct err as [e|].
  - destruct (WrapUnary_failure_exact i next start finish c req w res e Hs Hok Hn)
      as (service & method & p & ρ & o & _ & _ & _ & HW).
    rewrite HW. cbv zeta. unfold after_debug. rewrite request_logger_Enabled, Hq.
    eexists _, _. split; [reflexivity|]. cbn. split; [reflexivity|].
    split; [reflexivity|]. destruct (_ <? _)%N; discriminate.
  - destruct res as [r|]; [|contradiction Hne; reflexivity].
    destruct (WrapUnary_success_exact i next start finish c req w r Hs Hn)
      as (service & method & _ & HW).
    rewrite HW. cbv zeta. unfold after_debug. rewrite request_logger_Enabled, Hq.
    eexists _, _. split; [reflexivity|]. cbn. split; [reflexivity|].
    split; [reflexivity | discriminate].
Qed.

Lemma WrapUnary_quiet_witness :
  ∃ w' summary,
    interceptor.WrapUnary sample_interceptor failing_plain 0 5000000 tt
      sample_request sample_world
    = Ok (None, Some (errors.errorString "boom"), w')
    ∧ interceptor.maps w' = [sample_headers]
    ∧ interceptor.calls w' = [summary].
Proof.
  destruct (WrapUnary_quiet sample_interceptor failing_plain 0 5000000 tt
              sample_request sample_world)
    as (w' & summary & HW & Hm & Hc & _).
  - reflexivity.
  - apply Index_found. vm_compute. discriminate.
  - exact init_heap_ok.
  - discriminate.
  - exists w', summary. split; [exact HW|]. split; [exact Hm | exact Hc].
Defined.



Lemma after_debug_step {Ctx} (i : interceptor.loggingInterceptor Ctx)
    (logger : slog.Logger) (m : string) (header : nat) (before : list slog.Attr)
    (w : interceptor.world) :
  interceptor.errs (after_debug i logger m header before w) = interceptor.errs w
  ∧ ∃ pre, interceptor.calls (after_debug i logger m header before w)
           = interceptor.calls w ++ pre
           ∧ Forall (λ x, slog.level x = slog.LevelDebug) pre.
Proof.
  unfold after_debug. destruct (slog.Enabled logger slog.LevelDebug); cbn.
  - split; [reflexivity|]. eexists [_]. split; [reflexivity|]. repeat constructor.
  - split; [reflexivity|]. exists []. rewrite app_nil_r. split; [reflexivity|constructor].
Qed.

(** X13: a unary call whose handler succeeds gets, after debug records
    only, exactly one summary: "request completed" at info level, with the
    attributes of the request logger, the duration [finish - start], the
    request size when [calculateSize] gives one, and the response size when
    it gives one; nothing is classified and the error heap is untouched. *)
Theorem WrapUnary_success_summary {Ctx} (i : interceptor.loggingInterceptor Ctx)
    (next : interceptor.UnaryFunc Ctx) (start finish : Z) (c : Ctx)
    (req : interceptor.AnyRequest) (w : interceptor.world) (r : interceptor.AnyResponse) :
  splittable (connect.Procedure (interceptor.req_Spec req)) →
  next c req = (Some r, None) →
  ∃ w' pre summary logger,
    interceptor.WrapUnary i next start finish c req w = Ok (Some r, None, w')
    ∧ interceptor.errs w' = interceptor.errs w
    ∧ interceptor.calls w' = interceptor.calls w ++ pre ++ [summary]
    ∧ Forall (λ x, slog.level x = slog.LevelDebug) pre
    ∧ slog.level summary = slog.LevelInfo
    ∧ slog.msg summary = "request completed"
    ∧ interceptor.initRequestLogger i c (interceptor.req_Spec req) (interceptor.req_Peer req)
      = Ok logger
    ∧ slog.attrs summary
      = slog.bound logger
        ++ [("duration", slog.VDuration (finish - start))]
        ++ (if 0 <=? size.calculateSize (interceptor.req_Any req)
            then [("request_size",
                   slog.VInt64 (size.calculateSize (interceptor.req_Any req)))]
            else [])
        ++ (if 0 <=? size.calculateSize (interceptor.res_Any r)
            then [("response_size",
                   slog.VInt64 (size.calculateSize (interceptor.res_Any r)))]
            else []).
Proof.
  intros Hs Hn.
  destruct (WrapUnary_success_exact i next start finish c req w r Hs Hn)
    as (service & method & Hl & HW).
  cbv zeta in HW.
  set (logger := request_logger i c service method (interceptor.req_Peer req)) in *.
  set (w1 := after_debug i logger "request started" _ _ w) in *.
  set (w2 := after_debug i logger "response completed" _ _ w1) in *.
  destruct (after_debug_step i logger "request started" (interceptor.req_Header req)
              [slog.Any "request" (interceptor.req_Any req)] w)
    as (He1 & p1 & Hc1 & Hf1).
  destruct (after_debug_step i logger "response completed" (interceptor.res_Header r)
              [slog.Any "response" (interceptor.res_Any r)] w1)
    as (He2 & p2 & Hc2 & Hf2).
  fold w1 in He1, Hc1. fold w2 in He2, Hc2.
  eexists _, (p1 ++ p2), _, logger. split; [exact HW|].
  cbn [interceptor.emit interceptor.errs interceptor.calls slog.level slog.msg slog.attrs].
  split; [congruence|].
  split; [rewrite Hc2, Hc1, <- !app_assoc; reflexivity|].
  split; [apply Forall_app; auto|]. split; [reflexivity|]. split; [reflexivity|].
  split; [exact Hl|]. unfold unary_attrs.
  destruct (0 <=? size.calculateSize (interceptor.req_Any req)); reflexivity.
Qed.

Lemma WrapUnary_success_summary_witness :
  ∃ w' pre summary logger,
    interceptor.WrapUnary sample_interceptor succeeding 0 5000000 tt
      sample_request sample_world
    = Ok (Some {| interceptor.res_Header := 0%nat; interceptor.res_Any := slog.Str "world" |},
          None, w')
    ∧ interceptor.calls w' = interceptor.calls sample_world ++ pre ++ [summary]
    ∧ slog.level summary = slog.LevelInfo
    ∧ slog.attrs summary
      = slog.bound logger
        ++ [("duration", slog.VDuration 5000000)]
        ++ [("request_size", slog.VInt64 5)]
        ++ [("response_size", slog.VInt64 5)].
Proof.
  destruct (WrapUnary_success_summary sample_interceptor succeeding 0 5000000 tt
              sample_request sample_world
              {| interceptor.res_Header := 0%nat; interceptor.res_Any := slog.Str "world" |})
    as (w' & pre & summary & logger & HW & _ & Hc & _ & Hlv & _ & _ & Ha).
  - apply Index_found. vm_compute. discriminate.
  - reflexivity.
  - exists w', pre, summary, logger. split; [exact HW|]. split; [exact Hc|].
    split; [exact Hlv | exact Ha].
Defined.

(** X14: a handler error that is a context cancellation or a deadline
    expiry, with no connect error along its chain, is logged at warn level
    with the pointer to the package's singleton, and nothing is allocated:
    the error heap after the call is the heap before it. *)
Theorem WrapUnary_context_error {Ctx} (i : interceptor.loggingInterceptor Ctx)
    (next : interceptor.UnaryFunc Ctx) (start finish : Z) (c : Ctx)
    (req : interceptor.AnyRequest) (w : interceptor.world)
    (res : option interceptor.AnyResponse) (e : errors.error) :
  splittable (connect.Procedure (interceptor.req_Spec req)) →
  heap_ok (interceptor.errs w) →
  next c req = (res, Some e) →
  errors.As_connect e = None →
  errors.Is e errors.Canceled = true
  ∨ errors.Is e errors.DeadlineExceeded = true
  ∨ errors.Is e errors.ErrDeadlineExceeded = true →
  ∃ w' pre summary,
    interceptor.WrapUnary i next start finish c req w = Ok (res, Some e, w')
    ∧ interceptor.errs w' = interceptor.errs w
    ∧ interceptor.calls w' = interceptor.calls w ++ pre ++ [summary]
    ∧ Forall (λ x, slog.level x = slog.LevelDebug) pre
    ∧ slog.level summary = slog.LevelWarn
    ∧ slog.msg summary = "request failed"
    ∧ In ("error",
          slog.VLogValuer
            (slog.LoggableErrorPtr
               (Some (if errors.Is e errors.Canceled
                      then errorsgo.errCanceled else errorsgo.errDeadline))))
         (slog.attrs summary).
Proof.
  intros Hs Hok Hn Ha Hctx.
  destruct (WrapUnary_failure_exact i next start finish c req w res e Hs Hok Hn)
    as (service & method & p & ρ & o & _ & Hc & Hp & HW).
  cbv zeta in HW.
  set (logger := request_logger i c service method (interceptor.req_Peer req)) in *.
  destruct (after_debug_step i logger "request started" (interceptor.req_Header req)
              [slog.Any "request" (interceptor.req_Any req)] w)
    as (He1 & pre & Hc1 & Hf1).
  assert (ρ = interceptor.errs w
          ∧ p = (if errors.Is e errors.Canceled
                 then errorsgo.errCanceled else errorsgo.errDeadline)
          ∧ (errors.code (errorsgo.Error o) <? connect.CodeInternal)%N = true)
    as (-> & -> & Hlt).
  { destruct Hok as [H1 H2].
    unfold errorsgo.newLoggableError in Hc. rewrite Ha in Hc.
    destruct (errors.Is e errors.Canceled).
    - injection Hc as <- <-. rewrite H1 in Hp. injection Hp as <-. repeat split.
    - replace (errors.Is e errors.DeadlineExceeded || errors.Is e errors.ErrDeadlineExceeded)
        with true in Hc
        by (destruct Hctx as [?|[->| ->]]; [discriminate|reflexivity|];
            rewrite Bool.orb_true_r; reflexivity).
      injection Hc as <- <-. rewrite H2 in Hp. injection Hp as <-. repeat split. }
  rewrite Hlt in HW.
  eexists _, pre, _. split; [exact HW|].
  cbn [interceptor.errs interceptor.calls slog.level slog.msg slog.attrs].
  split; [reflexivity|]. split; [rewrite Hc1, <- app_assoc; reflexivity|].
  split; [exact Hf1|]. split; [reflexivity|]. split; [reflexivity|].
  apply in_or_app. right. apply in_or_app. right. left. reflexivity.
Qed.

Lemma WrapUnary_context_error_witness :
  ∃ w' pre summary,
    interceptor.WrapUnary sample_interceptor failing_canceled 0 5000000 tt
      sample_request sample_world
    = Ok (None,
          Some (errors.wrapError "lookup: context canceled"
                  (errors.Sentinel errors.Canceled)), w')
    ∧ interceptor.errs w' = errorsgo.init_heap
    ∧ interceptor.calls w' = interceptor.calls sample_world ++ pre ++ [summary]
    ∧ slog.level summary = slog.LevelWarn.
Proof.
  destruct (WrapUnary_context_error sample_interceptor failing_canceled 0 5000000 tt
              sample_request sample_world None
              (errors.wrapError "lookup: context canceled"
                 (errors.Sentinel errors.Canceled)))
    as (w' & pre & summary & HW & He & Hc & _ & Hl & _).
  - apply Index_found. vm_compute. discriminate.
  - exact init_heap_ok.
  - reflexivity.
  - reflexivity.
  - left. reflexivity.
  - exists w', pre, summary. split; [exact HW|]. split; [exact He|].
    split; [exact Hc | exact Hl].
Defined.

(** ** stream.go, further *)

Lemma sent_records_app (a b : list slog.LogCall) :
  sent_records (a ++ b) = (sent_records a + sent_records b)%nat.
Proof. unfold sent_records. rewrite filter_app, length_app. reflexivity. Qed.

Lemma received_records_app (a b : list slog.LogCall) :
  received_records (a ++ b) = (received_records a + received_records b)%nat.
Proof. unfold received_records. rewrite filter_app, length_app. reflexivity. Qed.

Section stream_debug.
Context {Ctx D : Type} `{!stream.StreamingHandlerConn D}.
Implicit Types (c : stream.loggedStreamConn Ctx D) (h : stream.StreamingHandler).

(** With debug on, a successful send writes one record, numbered with the
    new value of the counter. *)
Lemma Send_success_debug c calls msg d :
  stream.conn_Send (stream.embedded c) msg = (None, d) →
  stream.debugEnabled c = true →
  stream.Send (c, calls) msg
  = (None,
     (stream.set_sentCount (stream.set_embedded c d) (goint.incr (stream.sentCount c)),
      calls ++ [ {| slog.level := slog.LevelDebug;
                    slog.msg := "stream message sent";
                    slog.attrs :=
                      slog.bound (stream.logger c)
                      ++ [ ("number", slog.VInt64 (goint.incr (stream.sentCount c)));
                           ("size", slog.VInt64 (size.calculateSize msg));
                           ("response", slog.AnyValue msg) ] |} ])).
Proof. intros Hs Hd. unfold stream.Send. rewrite Hs. cbn. rewrite Hd. reflexivity. Qed.

Lemma Receive_success_debug c calls msg msg' d :
  stream.conn_Receive (stream.embedded c) msg = (msg', None, d) →
  stream.debugEnabled c = true →
  stream.Receive (c, calls) msg
  = (msg', None,
     (stream.set_receivedCount (stream.set_embedded c d)
        (goint.incr (stream.receivedCount c)),
      calls ++ [ {| slog.level := slog.LevelDebug;
                    slog.msg := "stream message received";
                    slog.attrs :=
                      slog.bound (stream.logger c)
                      ++ [ ("number", slog.VInt64 (goint.incr (stream.receivedCount c)));
                           ("size", slog.VInt64 (size.calculateSize msg'));
                           ("receive", slog.AnyValue msg') ] |} ])).
Proof. intros Hs Hd. unfold stream.Receive. rewrite Hs. cbn. rewrite Hd. reflexivity. Qed.

Lemma run_wrapped_debug h : ∀ c calls n m,
  tally h (stream.embedded c) = (n, m) →
  stream.debugEnabled c = true →
  ∃ err c' extra,
    stream.run h (c, calls) = (err, (c', calls ++ extra))
    ∧ sent_records extra = n
    ∧ received_records extra = m
    ∧ length extra = (n + m)%nat.
Proof.
  induction h as [e|msg k IH|msg k IH]; intros c calls n m Ht Hd.
  - cbn in Ht. injection Ht as <- <-. exists e, c, []. rewrite app_nil_r.
    repeat split.
  - cbn [tally] in Ht.
    destruct (stream.conn_Send (stream.embedded c) msg) as [e d1] eqn:Es.
    destruct (tally (k e) d1) as [n1 m1] eqn:Et. injection Ht as <- <-.
    destruct e as [e|].
    + destruct (IH (Some e) (stream.set_embedded c d1) calls n1 m1 Et Hd)
        as (err & c' & extra & Hr & Hrest).
      exists err, c', extra. split; [|exact Hrest].
      cbn [stream.run stream.conn_Send stream.Wrapped_conn].
      rewrite (Send_failure c calls msg e d1 Es). exact Hr.
    + destruct (IH None
                  (stream.set_sentCount (stream.set_embedded c d1)
                     (goint.incr (stream.sentCount c)))
                  (calls ++ [ {| slog.level := slog.LevelDebug;
                                 slog.msg := "stream message sent";
                                 slog.attrs :=
                                   slog.bound (stream.logger c)
                                   ++ [ ("number",
                                         slog.VInt64 (goint.incr (stream.sentCount c)));
                                        ("size", slog.VInt64 (size.calculateSize msg));
                                        ("response", slog.AnyValue msg) ] |} ])
                  n1 m1 Et Hd)
        as (err & c' & extra & Hr & Hs & Hrc & Hlen).
      eexists err, c', (_ :: extra). split.
      { cbn [stream.run stream.conn_Send stream.Wrapped_conn].
        rewrite (Send_success_debug c calls msg d1 Es Hd), Hr, <- app_assoc. reflexivity. }
      change (?x :: extra) with ([x] ++ extra).
      rewrite sent_records_app, received_records_app, length_app, Hs, Hrc, Hlen.
      repeat split.
  - cbn [tally] in Ht.
    destruct (stream.conn_Receive (stream.embedded c) msg) as [[msg' e] d1] eqn:Es.
    destruct (tally (k msg' e) d1) as [n1 m1] eqn:Et. injection Ht as <- <-.
    destruct e as [e|].
    + destruct (IH msg' (Some e) (stream.set_embedded c d1) calls n1 m1 Et Hd)
        as (err & c' & extra & Hr & Hrest).
      exists err, c', extra. split; [|exact Hrest].
      cbn [stream.run stream.conn_Receive stream.Wrapped_conn].
      rewrite (Receive_failure c calls msg msg' e d1 Es). exact Hr.
    + destruct (IH msg' None
                  (stream.set_receivedCount (stream.set_embedded c d1)
                     (goint.incr (stream.receivedCount c)))
                  (calls ++ [ {| slog.level := slog.LevelDebug;
                                 slog.msg := "stream message received";
                                 slog.attrs :=
                                   slog.bound (stream.logger c)
                                   ++ [ ("number",
                                         slog.VInt64 (goint.incr (stream.receivedCount c)));
                                        ("size", slog.VInt64 (size.calculateSize msg'));
                                        ("receive", slog.AnyValue msg') ] |} ])
                  n1 m1 Et Hd)
        as (err & c' & extra & Hr & Hs & Hrc & Hlen).
      eexists err, c', (_ :: extra). split.
      { cbn [stream.run stream.conn_Receive stream.Wrapped_conn].
        rewrite (Receive_success_debug c calls msg msg' d1 Es Hd), Hr, <- app_assoc.
        reflexivity. }
      change (?x :: extra) with ([x] ++ extra).
      rewrite sent_records_app, received_records_app, length_app, Hs, Hrc, Hlen.
      repeat split; cbn; lia.
Qed.
End stream_debug.

(** X15: the wrapper writes a debug record for each operation that
    succeeds underneath and for no other: with debug on when the
    connection is wrapped, a handler's run adds as many "stream message
    sent" records as sends succeeded and as many "stream message received"
    records as receives succeeded, and nothing else; with debug off it adds
    nothing. *)
Theorem stream_debug_records {Ctx D : Type} `{!stream.StreamingHandlerConn D}
    (h : stream.StreamingHandler) (x : Ctx) (conn : D) (l : slog.Logger)
    (calls : list slog.LogCall) :
  ∃ (c' : stream.loggedStreamConn Ctx D) extra,
    stream.run h (stream.newLoggedStreamConn x conn l, calls)
    = ((stream.run h conn).1, (c', calls ++ extra))
    ∧ (slog.Enabled l slog.LevelDebug = true →
         sent_records extra = (tally h conn).1
         ∧ received_records extra = (tally h conn).2
         ∧ length extra = ((tally h conn).1 + (tally h conn).2)%nat)
    ∧ (slog.Enabled l slog.LevelDebug = false → extra = []).
Proof.
  destruct (stream.run h conn) as [err d] eqn:Hrun.
  destruct (tally h conn) as [n m] eqn:Ht. cbn [fst snd].
  destruct (run_fresh_wrapper h x conn l calls err d n m Hrun Ht)
    as (c' & extra & Hr & _ & _ & _ & _ & Hq).
  exists c', extra. split; [exact Hr|]. split; [|exact Hq].
  intros Hd.
  destruct (run_wrapped_debug h (stream.newLoggedStreamConn x conn l) calls n m Ht Hd)
    as (err' & c'' & extra' & Hr' & Hcounts).
  rewrite Hr in Hr'. injection Hr' as _ _ Heq. apply app_inv_head in Heq as ->.
  exact Hcounts.
Qed.

Lemma stream_debug_records_witness :
  ∃ (c' : stream.loggedStreamConn unit nat) extra,
    stream.run sample_stream_handler (stream.newLoggedStreamConn tt 5%nat verbose_logger, [])
    = (Some (errors.Sentinel errors.EOF), (c', [] ++ extra))
    ∧ sent_records extra = 3%nat
    ∧ received_records extra = 2%nat
    ∧ length extra = 5%nat.
Proof.
  destruct (stream_debug_records sample_stream_handler tt 5%nat verbose_logger [])
    as (c' & extra & Hr & Hd & _).
  exists c', extra. split; [exact Hr|]. apply Hd. reflexivity.
Defined.

(** X16: with debug logging off, a streaming call writes its summary and
    nothing else, whatever the handler sends and receives, and allocates no
    header map. *)
Theorem WrapStreamingHandler_quiet {Ctx D : Type} `{!stream.StreamingHandlerConn D}
    (i : interceptor.loggingInterceptor Ctx) (next : Ctx → stream.StreamingHandler)
    (start finish : Z) (c : Ctx) (conn : D) (w : interceptor.world) :
  slog.Enabled (interceptor.i_logger i) slog.LevelDebug = false →
  splittable (connect.Procedure (stream.conn_Spec conn)) →
  heap_ok (interceptor.errs w) →
  ∃ w' summary,
    interceptor.WrapStreamingHandler i next start finish c conn w
    = Ok ((stream.run (next c) conn).1, (stream.run (next c) conn).2, w')
    ∧ interceptor.maps w' = interceptor.maps w
    ∧ interceptor.calls w' = interceptor.calls w ++ [summary]
    ∧ slog.level summary ≠ slog.LevelDebug
    ∧ In ("messages",
          slog.VGroup
            [ ("sent", slog.VInt64 (goint.wrap (Z.of_nat (tally (next c) conn).1)));
              ("received", slog.VInt64 (goint.wrap (Z.of_nat (tally (next c) conn).2))) ])
         (slog.attrs summary).
Proof.
  intros Hq Hs Hok.
  destruct (stream.run (next c) conn) as [err d] eqn:Hrun.
  destruct (tally (next c) conn) as [n m] eqn:Ht. cbn [fst snd].
  destruct (initRequestLogger_ok i c _ (stream.conn_Peer conn) Hs)
    as (service & method & Hl).
  unfold interceptor.WrapStreamingHandler. rewrite Hl. cbn [mbind result_bind].
  rewrite request_logger_Enabled, Hq.
  set (logger := request_logger i c service method (stream.conn_Peer conn)).
  destruct (run_fresh_wrapper (next c) c conn logger (interceptor.calls w)
              err d n m Hrun Ht)
    as (c' & extra & Hr & He & Hsc & Hrc & _ & Hx).
  assert (slog.Enabled logger slog.LevelDebug = false) as Hq'
    by (subst logger; rewrite request_logger_Enabled; exact Hq).
  rewrite (Hx Hq') in Hr.
  rewrite app_nil_r in Hr. rewrite Hr, He, Hsc, Hrc.
  assert (heap_ok (interceptor.errs
            {| interceptor.maps := interceptor.maps w;
               interceptor.errs := interceptor.errs w;
               interceptor.calls := interceptor.calls w |})) as Hok1 by exact Hok.
  destruct err as [e|].
  - destruct (errors.Is e errors.EOF); cbn [negb].
    + eexists _, _. split; [reflexivity|]. cbn. split; [reflexivity|].
      split; [reflexivity|]. split; [discriminate|].
      apply in_or_app. right. left. reflexivity.
    + destruct (log_failure_spec logger "stream failed"
                  [ slog.Group "messages"
                      [ slog.Int "sent" (goint.wrap (Z.of_nat n));
                        slog.Int "received" (goint.wrap (Z.of_nat m)) ];
                    slog.Duration "duration" (finish - start) ] e _ Hok1)
        as (p & ρ & o & Hc & Hp & Hf).
      rewrite Hf. cbn [mbind result_bind mret result_ret].
      eexists _, _. split; [reflexivity|]. cbn. split; [reflexivity|].
      split; [reflexivity|].
      split; [destruct (_ <? _)%N; discriminate|].
      apply in_or_app. right. left. reflexivity.
  - eexists _, _. split; [reflexivity|]. cbn. split; [reflexivity|].
    split; [reflexivity|]. split; [discriminate|].
    apply in_or_app. right. left. reflexivity.
Qed.

Lemma WrapStreamingHandler_quiet_witness :
  ∃ w' summary,
    interceptor.WrapStreamingHandler sample_interceptor (λ _, sample_stream_handler)
      0 7000000 tt 5%nat sample_world
    = Ok ((stream.run sample_stream_handler 5%nat).1,
          (stream.run sample_stream_handler 5%nat).2, w')
    ∧ interceptor.maps w' = [sample_headers]
    ∧ interceptor.calls w' = [summary].
Proof.
  destruct (WrapStreamingHandler_quiet sample_interceptor (λ _, sample_stream_handler)
              0 7000000 tt 5%nat sample_world)
    as (w' & summary & HW & Hm & Hc & _).
  - reflexivity.
  - apply Index_found. vm_compute. discriminate.
  - exact init_heap_ok.
  - exists w', summary. split; [exact HW|]. split; [exact Hm | exact Hc].
Defined.

Lemma New_default_redaction_witness :
  headers.shouldRedactHeader "X-Token-Id"
    (interceptor.redactHeaders (interceptor.New (Ctx := unit) quiet_logger []))
  = headers.shouldRedactHeader "X-Token-Id" [].
Proof.
  refine (proj1 (New_default_redaction (Ctx := unit) quiet_logger "X-Token-Id" _)).
  apply ascii_text_decide. vm_compute. reflexivity.
Defined.
